(** * TarotTeller: the rule-based interpretation engine

    A shallow embedding of [client/src/lib/tarotEngine.ts] together with the
    interfaces of [client/src/types/tarot.ts] it works on, and the properties
    of the engine stated in the design document.

    Conventions of the embedding.
    - A JavaScript string is a Rocq [string] (a sequence of bytes; the engine's
      templates are written here with the same UTF-8 text as in the source).
    - Position indices are integers ([Z]), as the spreads of the application
      number their positions; the [number] type of the source would also admit
      fractions, which the embedding leaves out. Counts are [nat].
    - An optional field [f?: T] is an [option T]; a test [if (x)] on an
      optional string is JavaScript truthiness: defined and not empty.
    - [Map] objects that are only read with [get] are [gmap]s; the two tallies,
      whose iteration order is observable, are insertion-ordered association
      lists.
    - [throw new Error(...)] is the left injection of a sum; the [Promise] of
      the [async] entry point is that sum (rejected on the left, fulfilled on
      the right).
    - [Math.random] is an injected sequence of draws. *)

From Stdlib Require Import QArith Qround.
From stdpp Require Import gmap strings list pretty sorting.

Close Scope Q_scope.
Local Open Scope string_scope.
Local Open Scope nat_scope.
Local Open Scope list_scope.

(** ** The data model ([types/tarot.ts]) *)

Inductive Arcana := Major | Minor.
Inductive Orientation := upright | reversed.
Inductive ReversalMode := soft | strong.

#[global] Instance Arcana_eq_dec : EqDecision Arcana.
Proof. solve_decision. Defined.
#[global] Instance Orientation_eq_dec : EqDecision Orientation.
Proof. solve_decision. Defined.
#[global] Instance ReversalMode_eq_dec : EqDecision ReversalMode.
Proof. solve_decision. Defined.

Module TarotCard.
Record t := mk {
  id : string;
  name : string;
  arcana : Arcana;
  suit : option string;
  number : option Z;
  keywords : list string;
  uprightShort : string;
  uprightLong : string;
  reversedShort : string;
  reversedLong : string;
  imageUrl : option string
}.
End TarotCard.

Module SpreadPosition.
Record t := mk {
  index : Z;
  name : string;
  roleHint : string;
  x : option Z;
  y : option Z
}.
End SpreadPosition.

Module LayoutHints.
Record t := mk {
  rows : option Z;
  cols : option Z;
  type : option string
}.
End LayoutHints.

Module TarotSpread.
Record t := mk {
  id : string;
  name : string;
  description : option string;
  positions : list SpreadPosition.t;
  layoutHints : option LayoutHints.t
}.
End TarotSpread.

Module PlacedCard.
Record t := mk {
  cardId : string;
  orientation : Orientation;
  position : Z;
  x : option Z;
  y : option Z
}.
End PlacedCard.

Module PositionReading.
(** The element type of [InterpretationResult.positions]. *)
Record t := mk {
  slotName : string;
  cardId : string;
  orientation : Orientation;
  interpretationShort : string;
  interpretationLong : string
}.
End PositionReading.

Module InterpretationResult.
Record t := mk {
  positions : list PositionReading.t;
  overallSummary : string;
  keywords : list string;
  confidenceHints : list string;
  suggestedActions : list string;
  dominantSuit : option string;
  majorArcanaCount : nat;
  reversedCount : nat
}.
End InterpretationResult.

Module CombinationRule.
Record t := mk {
  id : string;
  name : string;
  cardIds : list string;
  condition : string;
  modifier : string;
  weight : Z;
  isActive : bool
}.
End CombinationRule.

Module InterpretationOptions.
Record t := mk { reversalMode : option ReversalMode }.
End InterpretationOptions.

(** ** JavaScript primitives used by the engine *)

(** Truthiness of a string: every string but the empty one. *)
Definition truthy (s : string) : bool :=
  match s with
  | EmptyString => false
  | String _ _ => true
  end.

(** Truthiness of an optional string ([undefined] is falsy). *)
Definition truthy_opt (o : option string) : option string :=
  match o with
  | Some s => if truthy s then Some s else None
  | None => None
  end.

(** [String.prototype.toLowerCase] on the ASCII letters; other bytes are
    kept. *)
Definition lower_ascii (c : Ascii.ascii) : Ascii.ascii :=
  let n := Ascii.N_of_ascii c in
  if ((65 <=? n) && (n <=? 90))%N then Ascii.ascii_of_N (n + 32) else c.

Fixpoint toLowerCase (s : string) : string :=
  match s with
  | EmptyString => EmptyString
  | String c s' => String (lower_ascii c) (toLowerCase s')
  end.

(** [Array.prototype.join]. *)
Definition join (sep : string) (l : list string) : string := String.concat sep l.

(** Template interpolation of the two enumerations and of numbers. *)
Definition show_orientation (o : Orientation) : string :=
  match o with
  | upright => "upright"
  | reversed => "reversed"
  end.

Definition show_nat (n : nat) : string := pretty n.
Definition show_Z (z : Z) : string := pretty z.

(** ** Errors *)

Inductive EngineError :=
  | CardNotFound (cardId : string)
  | PositionNotFound (position : Z).

Definition error_message (e : EngineError) : string :=
  match e with
  | CardNotFound cid => "Card not found: " +:+ cid
  | PositionNotFound p => "Position not found: " +:+ show_Z p
  end.

Definition result (A : Type) : Type := EngineError + A.

Definition throw {A} (e : EngineError) : result A := inl e.

#[global] Instance result_ret : MRet result := λ A a, inr a.
#[global] Instance result_bind : MBind result := λ A B k m,
  match m with
  | inl e => inl e
  | inr a => k a
  end.

(** [Array.prototype.map] with a callback that may throw: the elements are
    visited in order and the first exception aborts the whole map. *)
Fixpoint map_throwing {A B} (f : A → result B) (l : list A) : result (list B) :=
  match l with
  | [] => mret []
  | a :: l' =>
      b ← f a;
      bs ← map_throwing f l';
      mret (b :: bs)
  end.

(** ** Insertion-ordered tallies ([Map<string, number>]) *)

Definition tally : Type := list (string * nat).

Fixpoint tally_get (k : string) (m : tally) : option nat :=
  match m with
  | [] => None
  | (k', v) :: m' => if decide (k' = k) then Some v else tally_get k m'
  end.

(** [Map.prototype.set]: an existing key keeps its place, a new key goes
    last. *)
Fixpoint tally_set (k : string) (v : nat) (m : tally) : tally :=
  match m with
  | [] => [(k, v)]
  | (k', v') :: m' =>
      if decide (k' = k) then (k', v) :: m' else (k', v') :: tally_set k v m'
  end.

(** [m.set(k, (m.get(k) || 0) + 1)]; [|| 0] sends [undefined] (and [0]) to
    [0]. *)
Definition tally_incr (m : tally) (k : string) : tally :=
  tally_set k (default 0 (tally_get k m) + 1) m.

(** [[...m.entries()].sort(([,a], [,b]) => b - a)]: [Array.prototype.sort] is
    a stable sort, so the entries come out by descending count and, among equal
    counts, in their order in the map. A stable sort has one possible
    outcome; it is computed here by insertion. *)
Fixpoint insert_desc (e : string * nat) (l : tally) : tally :=
  match l with
  | [] => [e]
  | e' :: l' => if decide (e'.2 ≤ e.2)%nat then e :: e' :: l' else e' :: insert_desc e l'
  end.

Fixpoint sort_desc (l : tally) : tally :=
  match l with
  | [] => []
  | e :: l' => insert_desc e (sort_desc l')
  end.

(** ** The engine ([lib/tarotEngine.ts]) *)

(** [new Map(allCards.map(c => [c.id, c]))]: the entries are set one after
    the other, so of two catalog cards with one id the later one is kept. *)
Definition cardMap_of (allCards : list TarotCard.t) : gmap string TarotCard.t :=
  fold_left (λ m c, <[TarotCard.id c := c]> m) allCards ∅.

Module BaseInterpretation.
Record t := mk { short : string; long : string }.
End BaseInterpretation.

Definition getBaseInterpretation (card : TarotCard.t) (orientation : Orientation)
    (reversalMode : ReversalMode) : BaseInterpretation.t :=
  match orientation with
  | upright =>
      {| BaseInterpretation.short := TarotCard.uprightShort card;
         BaseInterpretation.long := TarotCard.uprightLong card |}
  | reversed =>
      match reversalMode with
      | strong =>
          {| BaseInterpretation.short := TarotCard.reversedShort card;
             BaseInterpretation.long := TarotCard.reversedLong card |}
      | soft =>
          {| BaseInterpretation.short :=
               TarotCard.reversedShort card +:+ " (blocked or internal)";
             BaseInterpretation.long :=
               TarotCard.reversedLong card +:+ " The energy of " +:+ TarotCard.name card
               +:+ " is present but may be blocked, internalized, or manifesting in a subtle way." |}
      end
  end.

Definition getPositionModifier (position : SpreadPosition.t) (card : TarotCard.t)
    (orientation : Orientation) : string :=
  let roleHint :=
    if truthy (SpreadPosition.roleHint position) then SpreadPosition.roleHint position else "" in
  let orientationNote :=
    match orientation with
    | reversed => "internal or blocked"
    | upright => "manifesting externally"
    end in
  "As " +:+ toLowerCase (SpreadPosition.name position) +:+ ", this energy is "
  +:+ orientationNote +:+ " and suggests " +:+ toLowerCase roleHint +:+ ".".

(** Simple adjacency: cards in positions immediately before/after. *)
Definition getAdjacentCards (placedCards : list PlacedCard.t) (currentCard : PlacedCard.t)
    (spread : TarotSpread.t) : list PlacedCard.t :=
  let currentPos := PlacedCard.position currentCard in
  filter (λ card : PlacedCard.t,
            PlacedCard.cardId card ≠ PlacedCard.cardId currentCard
            ∧ (Z.abs (PlacedCard.position card - currentPos) ≤ 1)%Z)
         placedCards.

Definition getSuitTheme (suit : string) : string :=
  if decide (suit = "wands") then "passion, creativity, and spiritual growth"
  else if decide (suit = "cups") then "emotions, relationships, and intuition"
  else if decide (suit = "swords") then "thoughts, communication, and challenges"
  else if decide (suit = "pentacles") then "material matters, work, and practical concerns"
  else "spiritual and life path themes".

(** The three counts taken over the adjacent cards. *)
Definition sameSuitCount (cardMap : gmap string TarotCard.t) (suit : string)
    (adjacentCards : list PlacedCard.t) : nat :=
  length (filter (λ adj : PlacedCard.t,
                    (cardMap !! PlacedCard.cardId adj) ≫= TarotCard.suit = Some suit)
                 adjacentCards).

Definition adjacentMajorCount (cardMap : gmap string TarotCard.t)
    (adjacentCards : list PlacedCard.t) : nat :=
  length (filter (λ adj : PlacedCard.t,
                    TarotCard.arcana <$> (cardMap !! PlacedCard.cardId adj) = Some Major)
                 adjacentCards).

Definition adjacentReversedCount (adjacentCards : list PlacedCard.t) : nat :=
  length (filter (λ adj : PlacedCard.t, PlacedCard.orientation adj = reversed) adjacentCards).

Definition getAdjacencyInfluence (placedCards : list PlacedCard.t) (currentCard : PlacedCard.t)
    (cardMap : gmap string TarotCard.t) (spread : TarotSpread.t) : string :=
  let adjacentCards := getAdjacentCards placedCards currentCard spread in
  let influences : list string := [] in
  (* Check for suit clustering *)
  let currentCardData := cardMap !! PlacedCard.cardId currentCard in
  let influences :=
    match truthy_opt (currentCardData ≫= TarotCard.suit) with
    | Some suit =>
        if decide (2 ≤ sameSuitCount cardMap suit adjacentCards)%nat
        then influences ++ ["Strong " +:+ suit +:+ " influence emphasizes "
                            +:+ getSuitTheme suit +:+ "."]
        else influences
    | None => influences
    end in
  (* Check for Major Arcana clustering *)
  let influences :=
    if decide (2 ≤ adjacentMajorCount cardMap adjacentCards)%nat
    then influences
         ++ ["Multiple Major Arcana nearby indicate significant life themes and spiritual lessons."]
    else influences in
  (* Check for reversed card patterns *)
  let influences :=
    if decide (2 ≤ adjacentReversedCount adjacentCards)%nat
    then influences ++ ["Surrounded by reversed cards suggests internal work or blocked energies."]
    else influences in
  join " " influences.

(** A JavaScript number in a condition is truthy unless it is zero. *)
Definition truthy_nat (n : nat) : bool := negb (n =? 0)%nat.

Definition generateSummary (majorCount : nat) (dominantSuit : option string)
    (reversedCount totalCards : nat) : string :=
  let summary := "" in
  let summary :=
    if decide (3 ≤ majorCount)%nat
    then summary +:+ "This reading reveals significant life changes and spiritual themes. "
    else if decide (1 ≤ majorCount)%nat
    then summary +:+ "Important life lessons and personal growth are highlighted. "
    else summary in
  let summary :=
    match truthy_opt dominantSuit with
    | Some suit => summary +:+ "The focus is on " +:+ getSuitTheme suit +:+ ". "
    | None => summary
    end in
  let summary :=
    if truthy_nat reversedCount && truthy_nat totalCards
       && Qle_bool (inject_Z (Z.of_nat totalCards) / 2) (inject_Z (Z.of_nat reversedCount))
    then summary +:+ "Many reversed cards suggest internal work and reflection are needed. "
    else summary in
  summary +:+ "Trust your intuition as you interpret these messages for your path forward.".

Definition generateConfidenceHints (majorCount : nat) (dominantSuit : option string)
    (reversedCount : nat) : list string :=
  let hints : list string := [] in
  let hints :=
    if decide (3 ≤ majorCount)%nat
    then hints ++ [show_nat majorCount
                   +:+ " Major Arcana cards detected — reading focuses on significant life themes"]
    else hints in
  let hints :=
    match truthy_opt dominantSuit with
    | Some suit => hints ++ ["Dominant suit: " +:+ suit +:+ " — interpretation emphasizes "
                             +:+ getSuitTheme suit]
    | None => hints
    end in
  let hints :=
    if truthy_nat reversedCount && bool_decide (3 ≤ reversedCount)%nat
    then hints ++ [show_nat reversedCount
                   +:+ " reversed cards suggest internal processing or blocked energies"]
    else hints in
  hints.

Definition generateSuggestedActions (majorCount : nat) (dominantSuit : option string)
    (keywords : list string) : list string :=
  let actions : list string := [] in
  let actions :=
    if decide (2 ≤ majorCount)%nat
    then actions ++ ["Pay attention to synchronicities and signs in your daily life"]
    else actions in
  let actions :=
    if decide (dominantSuit = Some "cups")
    then actions ++ ["Focus on emotional healing and nurturing relationships"]
    else if decide (dominantSuit = Some "wands")
    then actions ++ ["Take inspired action on creative projects and passions"]
    else if decide (dominantSuit = Some "swords")
    then actions ++ ["Practice clear communication and mental clarity"]
    else if decide (dominantSuit = Some "pentacles")
    then actions ++ ["Focus on practical matters and building stable foundations"]
    else actions in
  let actions :=
    if decide ("balance" ∈ keywords)
    then actions ++ ["Seek balance and moderation in all areas of life"]
    else actions in
  let actions :=
    if decide ("transformation" ∈ keywords)
    then actions ++ ["Embrace change as an opportunity for growth"]
    else actions in
  take 3 actions.

Module Analysis.
(** The object returned by [generateOverallAnalysis]. *)
Record t := mk {
  summary : string;
  keywords : list string;
  confidenceHints : list string;
  suggestedActions : list string;
  dominantSuit : option string;
  majorArcanaCount : nat;
  reversedCount : nat
}.
End Analysis.

(** [placedCards.map(pc => cardMap.get(pc.cardId)!).filter(Boolean)]: the
    catalog cards of the placed cards that resolve, in placement order. *)
Definition resolvedCards (placedCards : list PlacedCard.t)
    (cardMap : gmap string TarotCard.t) : list TarotCard.t :=
  omap (λ pc, cardMap !! PlacedCard.cardId pc) placedCards.

(** The [forEach] that fills [suitCounts]. *)
Definition suitCounts_of (cards : list TarotCard.t) : tally :=
  fold_left (λ suitCounts card,
               match truthy_opt (TarotCard.suit card) with
               | Some suit => tally_incr suitCounts suit
               | None => suitCounts
               end)
            cards [].

(** [cards.flatMap(c => c.keywords)] and the [forEach] that fills
    [keywordCounts]. *)
Definition allKeywords_of (cards : list TarotCard.t) : list string :=
  concat (map TarotCard.keywords cards).

Definition keywordCounts_of (allKeywords : list string) : tally :=
  fold_left tally_incr allKeywords [].

Definition generateOverallAnalysis (placedCards : list PlacedCard.t)
    (cardMap : gmap string TarotCard.t) (combinationRules : list CombinationRule.t)
    : Analysis.t :=
  let cards := resolvedCards placedCards cardMap in
  (* Count major arcana *)
  let majorArcanaCount := length (filter (λ c, TarotCard.arcana c = Major) cards) in
  (* Count reversed cards *)
  let reversedCount :=
    length (filter (λ pc, PlacedCard.orientation pc = reversed) placedCards) in
  (* Analyze dominant suit *)
  let suitCounts := suitCounts_of cards in
  let dominantSuit := fst <$> head (sort_desc suitCounts) in
  (* Extract keywords *)
  let allKeywords := allKeywords_of cards in
  let keywordCounts := keywordCounts_of allKeywords in
  let topKeywords := (take 5 (sort_desc keywordCounts)).*1 in
  let summary := generateSummary majorArcanaCount dominantSuit reversedCount (length placedCards) in
  let confidenceHints := generateConfidenceHints majorArcanaCount dominantSuit reversedCount in
  let suggestedActions := generateSuggestedActions majorArcanaCount dominantSuit topKeywords in
  {| Analysis.summary := summary;
     Analysis.keywords := topKeywords;
     Analysis.confidenceHints := confidenceHints;
     Analysis.suggestedActions := suggestedActions;
     Analysis.dominantSuit := dominantSuit;
     Analysis.majorArcanaCount := majorArcanaCount;
     Analysis.reversedCount := reversedCount |}.

Definition composeShortInterpretation (position : SpreadPosition.t) (card : TarotCard.t)
    (orientation : Orientation) (baseShort positionModifier : string) : string :=
  SpreadPosition.name position +:+ ": " +:+ TarotCard.name card +:+ " ("
  +:+ show_orientation orientation +:+ ") — " +:+ baseShort.

Definition composeLongInterpretation (position : SpreadPosition.t) (card : TarotCard.t)
    (orientation : Orientation) (baseLong positionModifier adjacencyNotes : string) : string :=
  let interpretation :=
    TarotCard.name card +:+ " in " +:+ SpreadPosition.name position +:+ " ("
    +:+ show_orientation orientation +:+ ") — " +:+ baseLong in
  let interpretation :=
    if truthy positionModifier then interpretation +:+ " " +:+ positionModifier
    else interpretation in
  let interpretation :=
    if truthy adjacencyNotes then interpretation +:+ " " +:+ adjacencyNotes
    else interpretation in
  interpretation.

(** [spread.positions.find(p => p.index === placedCard.position)]. *)
Definition findPosition (spread : TarotSpread.t) (position : Z) : option SpreadPosition.t :=
  List.find (λ p, (SpreadPosition.index p =? position)%Z) (TarotSpread.positions spread).

(** The callback of [placedCards.map] in [interpretReading]. *)
Definition interpretPosition (spread : TarotSpread.t) (placedCards : list PlacedCard.t)
    (cardMap : gmap string TarotCard.t) (reversalMode : ReversalMode)
    (placedCard : PlacedCard.t) : result PositionReading.t :=
  card ← match cardMap !! PlacedCard.cardId placedCard with
         | Some card => mret card
         | None => throw (CardNotFound (PlacedCard.cardId placedCard))
         end;
  position ← match findPosition spread (PlacedCard.position placedCard) with
             | Some position => mret position
             | None => throw (PositionNotFound (PlacedCard.position placedCard))
             end;
  let baseInterpretation :=
    getBaseInterpretation card (PlacedCard.orientation placedCard) reversalMode in
  let positionModifier :=
    getPositionModifier position card (PlacedCard.orientation placedCard) in
  let adjacencyNotes := getAdjacencyInfluence placedCards placedCard cardMap spread in
  mret {| PositionReading.slotName := SpreadPosition.name position;
          PositionReading.cardId := TarotCard.id card;
          PositionReading.orientation := PlacedCard.orientation placedCard;
          PositionReading.interpretationShort :=
            composeShortInterpretation position card (PlacedCard.orientation placedCard)
              (BaseInterpretation.short baseInterpretation) positionModifier;
          PositionReading.interpretationLong :=
            composeLongInterpretation position card (PlacedCard.orientation placedCard)
              (BaseInterpretation.long baseInterpretation) positionModifier adjacencyNotes |}.

(** [options?.reversalMode || "soft"]. *)
Definition reversalMode_of (options : option InterpretationOptions.t) : ReversalMode :=
  default soft (options ≫= InterpretationOptions.reversalMode).

Definition interpretReading (spread : TarotSpread.t) (placedCards : list PlacedCard.t)
    (allCards : list TarotCard.t) (combinationRules : list CombinationRule.t)
    (options : option InterpretationOptions.t) : result InterpretationResult.t :=
  let cardMap := cardMap_of allCards in
  let reversalMode := reversalMode_of options in
  (* Build position interpretations *)
  positions ← map_throwing (interpretPosition spread placedCards cardMap reversalMode)
                placedCards;
  (* Generate overall analysis *)
  let analysis := generateOverallAnalysis placedCards cardMap combinationRules in
  mret {| InterpretationResult.positions := positions;
          InterpretationResult.overallSummary := Analysis.summary analysis;
          InterpretationResult.keywords := Analysis.keywords analysis;
          InterpretationResult.confidenceHints := Analysis.confidenceHints analysis;
          InterpretationResult.suggestedActions := Analysis.suggestedActions analysis;
          InterpretationResult.dominantSuit := Analysis.dominantSuit analysis;
          InterpretationResult.majorArcanaCount := Analysis.majorArcanaCount analysis;
          InterpretationResult.reversedCount := Analysis.reversedCount analysis |}.

(** ** Dealing *)

(** The double nearest to [0.7], the literal the dealer compares with. *)
Definition double_0_7 : Q := 3152519739159347 # 4503599627370496.

(** [dealCards]. The [n]-th call of [Math.random] returns [random n]; the
    callback of [map] makes one call per dealt card, in order.
    [shuffledCards[index]] is [undefined] out of range and reading its [id]
    would throw, which is [None] here. *)
Definition dealCards (random : nat → Q) (shuffledCards : list TarotCard.t)
    (spread : TarotSpread.t) : option (list PlacedCard.t) :=
  mapM (λ '(index, position),
          card ← shuffledCards !! index;
          Some {| PlacedCard.cardId := TarotCard.id card;
                  PlacedCard.orientation :=
                    if Qlt_le_dec double_0_7 (random index) then reversed else upright;
                  PlacedCard.position := SpreadPosition.index position;
                  PlacedCard.x := None;
                  PlacedCard.y := None |})
       (imap pair (take (length shuffledCards) (TarotSpread.positions spread))).

(** ** Shuffling *)

(** [Math.floor(r * n)] for a draw [r] of [Math.random]; draws are doubles,
    taken as the rationals they are, and the product is taken exactly. *)
Definition randomIndex (r : Q) (n : nat) : Z := Qfloor (r * inject_Z (Z.of_nat n)).

(** [[a[i], a[j]] = [a[j], a[i]]]: both elements are read, then [a[i]] and
    [a[j]] are written in that order. Reading outside the array gives
    [undefined], which would then be stored in place of a card: [None]. *)
Definition swap {A} (a : list A) (i : nat) (j : Z) : option (list A) :=
  if decide (0 ≤ j)%Z then
    ai ← a !! i;
    aj ← a !! Z.to_nat j;
    Some (<[Z.to_nat j := ai]> (<[i := aj]> a))
  else None.

(** The loop of [shuffleDeck], from index [i] down to 1. [call] numbers the
    calls of [Math.random]; the number of the next call is returned with the
    array. *)
Fixpoint shuffle_loop {A} (random : nat → Q) (call i : nat) (shuffled : list A)
    : option (list A * nat) :=
  match i with
  | 0 => Some (shuffled, call)
  | S i' =>
      let j := randomIndex (random call) (i + 1) in
      shuffled' ← swap shuffled i j;
      shuffle_loop random (S call) i' shuffled'
  end.

(** [shuffleDeck], with the number of calls of [Math.random] it has made. *)
Definition shuffleDeck_calls (random : nat → Q) (cards : list TarotCard.t)
    : option (list TarotCard.t * nat) :=
  shuffle_loop random 0 (length cards - 1) cards.

Definition shuffleDeck (random : nat → Q) (cards : list TarotCard.t)
    : option (list TarotCard.t) :=
  fst <$> shuffleDeck_calls random cards.

(** ** The reading page ([Home]) *)

Module Toast.
Record t := mk {
  title : string;
  description : string;
  destructive : bool
}.
End Toast.

Module Home.
(** The four state variables of the component. *)
Record t := mk {
  selectedSpread : option TarotSpread.t;
  placedCards : list PlacedCard.t;
  interpretation : option InterpretationResult.t;
  isManualMode : bool
}.
End Home.

(** The state before any event. *)
Definition Home_initial : Home.t :=
  {| Home.selectedSpread := None; Home.placedCards := [];
     Home.interpretation := None; Home.isManualMode := false |}.

(** Each handler maps the state it runs in to the state after its updates,
    with the toasts it shows. *)
Definition handleSpreadSelect (st : Home.t) (spread : TarotSpread.t)
    : Home.t * list Toast.t :=
  ({| Home.selectedSpread := Some spread; Home.placedCards := [];
      Home.interpretation := None; Home.isManualMode := false |}, []).

(** [cards] is the catalog the page has fetched. The shuffle draws first,
    the deal goes on with the following draws. [None] stands for an exception
    in the shuffle or the deal. *)
Definition handleShuffleAndDeal (random : nat → Q) (cards : list TarotCard.t) (st : Home.t)
    : option (Home.t * list Toast.t) :=
  match Home.selectedSpread st with
  | None => Some (st, [])
  | Some selectedSpread =>
      if decide (length cards = 0) then Some (st, [])
      else
        '(shuffled, calls) ← shuffleDeck_calls random cards;
        dealt ← dealCards (λ n, random (calls + n)) shuffled selectedSpread;
        Some ({| Home.selectedSpread := Home.selectedSpread st;
                 Home.placedCards := dealt;
                 Home.interpretation := None;
                 Home.isManualMode := false |},
              [{| Toast.title := "Cards dealt";
                  Toast.description :=
                    show_nat (length dealt) +:+ " cards have been placed in the spread";
                  Toast.destructive := false |}])
  end.

Definition handleManualSelection (st : Home.t) : Home.t * list Toast.t :=
  ({| Home.selectedSpread := Home.selectedSpread st; Home.placedCards := [];
      Home.interpretation := None; Home.isManualMode := true |},
   [{| Toast.title := "Manual mode enabled";
       Toast.description := "Drag cards from the library to the spread positions";
       Toast.destructive := false |}]).

Definition handleCardPlace (st : Home.t) (position : Z) (cardId : string)
    (orientation : Orientation) : Home.t * list Toast.t :=
  let placedCards := Home.placedCards st in
  let existingCardIndex :=
    fst <$> list_find (λ pc, PlacedCard.position pc = position) placedCards in
  let isCardAlreadyPlaced :=
    bool_decide (Exists (λ pc, PlacedCard.cardId pc = cardId) placedCards) in
  if isCardAlreadyPlaced then
    (st, [{| Toast.title := "Card already in use";
             Toast.description := "This card is already placed in the spread";
             Toast.destructive := true |}])
  else
    let newCard :=
      {| PlacedCard.cardId := cardId; PlacedCard.orientation := orientation;
         PlacedCard.position := position; PlacedCard.x := None; PlacedCard.y := None |} in
    let newPlacedCards :=
      match existingCardIndex with
      | Some existingCardIndex => <[existingCardIndex := newCard]> placedCards
      | None => placedCards ++ [newCard]
      end in
    ({| Home.selectedSpread := Home.selectedSpread st;
        Home.placedCards := newPlacedCards;
        Home.interpretation := None; (* Clear interpretation when cards change *)
        Home.isManualMode := Home.isManualMode st |}, []).

Definition toggleOrientation (o : Orientation) : Orientation :=
  match o with
  | upright => reversed
  | reversed => upright
  end.

Definition handleCardToggle (st : Home.t) (cardId : string) : Home.t * list Toast.t :=
  ({| Home.selectedSpread := Home.selectedSpread st;
      Home.placedCards :=
        (λ pc,
           if decide (PlacedCard.cardId pc = cardId)
           then {| PlacedCard.cardId := PlacedCard.cardId pc;
                   PlacedCard.orientation := toggleOrientation (PlacedCard.orientation pc);
                   PlacedCard.position := PlacedCard.position pc;
                   PlacedCard.x := PlacedCard.x pc;
                   PlacedCard.y := PlacedCard.y pc |}
           else pc) <$> Home.placedCards st;
      Home.interpretation := None; (* Clear interpretation when orientation changes *)
      Home.isManualMode := Home.isManualMode st |}, []).

Definition handleClearSpread (st : Home.t) : Home.t * list Toast.t :=
  ({| Home.selectedSpread := Home.selectedSpread st; Home.placedCards := [];
      Home.interpretation := None; Home.isManualMode := Home.isManualMode st |},
   [{| Toast.title := "Spread cleared";
       Toast.description := "All cards have been removed from the spread";
       Toast.destructive := false |}]).

(** [onSuccess] of the interpretation request. *)
Definition interpretSucceeded (st : Home.t) (result : InterpretationResult.t)
    : Home.t * list Toast.t :=
  ({| Home.selectedSpread := Home.selectedSpread st;
      Home.placedCards := Home.placedCards st;
      Home.interpretation := Some result;
      Home.isManualMode := Home.isManualMode st |},
   [{| Toast.title := "Reading interpreted";
       Toast.description := "Your tarot reading has been analyzed";
       Toast.destructive := false |}]).

(** [usedCardIds] of the page and [availableCards] of the card library,
    which filters the cards it lists after searching, filtering and sorting
    ([filteredCards]). *)
Definition usedCardIds (st : Home.t) : list string :=
  PlacedCard.cardId <$> Home.placedCards st.

Definition availableCards (filteredCards : list TarotCard.t) (usedCardIds : list string)
    : list TarotCard.t :=
  filter (λ card, TarotCard.id card ∉ usedCardIds) filteredCards.

(** [getCardAtPosition] of the spread board. *)
Definition getCardAtPosition (placedCards : list PlacedCard.t) (position : Z)
    : option PlacedCard.t :=
  List.find (λ pc, bool_decide (PlacedCard.position pc = position)) placedCards.

(** The events of the page. [spreads] are the spreads the selector offers
    and [cards] the catalog the page has fetched; a deal starts anywhere in the
    sequence of draws. The states the page can be in are those reached from
    the initial state by handler runs that do not throw. *)
Inductive Home_step (random : nat → Q) (spreads : list TarotSpread.t)
    (cards : list TarotCard.t) : Home.t → Home.t → Prop :=
  | step_select st spread :
      spread ∈ spreads →
      Home_step random spreads cards st (handleSpreadSelect st spread).1
  | step_deal st st' toasts offset :
      handleShuffleAndDeal (λ n, random (offset + n)) cards st = Some (st', toasts) →
      Home_step random spreads cards st st'
  | step_manual st :
      Home_step random spreads cards st (handleManualSelection st).1
  | step_place st position cardId orientation :
      Home_step random spreads cards st (handleCardPlace st position cardId orientation).1
  | step_toggle st cardId :
      Home_step random spreads cards st (handleCardToggle st cardId).1
  | step_clear st :
      Home_step random spreads cards st (handleClearSpread st).1
  | step_interpreted st result :
      Home_step random spreads cards st (interpretSucceeded st result).1.

Inductive Home_reachable (random : nat → Q) (spreads : list TarotSpread.t)
    (cards : list TarotCard.t) : Home.t → Prop :=
  | reachable_initial : Home_reachable random spreads cards Home_initial
  | reachable_step st st' :
      Home_reachable random spreads cards st →
      Home_step random spreads cards st st' →
      Home_reachable random spreads cards st'.

(** ** The interpretation route ([POST /api/interpret]) *)

Module InterpretRequest.
(** The request body once [interpretRequestSchema] has accepted it. *)
Record t := mk {
  spreadId : string;
  cards : list PlacedCard.t;
  options : option InterpretationOptions.t
}.
End InterpretRequest.

(** [handleInterpret] of the page: the request it sends, if it sends one. *)
Definition handleInterpret (st : Home.t) : option InterpretRequest.t :=
  match Home.selectedSpread st with
  | None => None
  | Some selectedSpread =>
      if decide (length (Home.placedCards st) = 0) then None
      else Some {| InterpretRequest.spreadId := TarotSpread.id selectedSpread;
                   InterpretRequest.cards := Home.placedCards st;
                   InterpretRequest.options :=
                     Some {| InterpretationOptions.reversalMode := Some soft |} |}
  end.

Module Storage.
(** What the three storage calls of the route return. *)
Record t := mk {
  getSpread : string → option TarotSpread.t;
  getAllCards : list TarotCard.t;
  getAllCombinationRules : list CombinationRule.t
}.
End Storage.

Inductive ResponseBody :=
  | JsonMessage (message : string)
  | JsonInterpretation (interpretation : InterpretationResult.t).

Module Response.
Record t := mk { status : nat; body : ResponseBody }.
End Response.

(** The three converters replace [null] by [undefined] in optional fields;
    both are [None] here. *)
Definition convertDbSpreadToFrontendSpread (dbSpread : TarotSpread.t) : TarotSpread.t :=
  {| TarotSpread.id := TarotSpread.id dbSpread;
     TarotSpread.name := TarotSpread.name dbSpread;
     TarotSpread.description := TarotSpread.description dbSpread;
     TarotSpread.positions := TarotSpread.positions dbSpread;
     TarotSpread.layoutHints := TarotSpread.layoutHints dbSpread |}.

Definition convertDbCardToFrontendCard (dbCard : TarotCard.t) : TarotCard.t :=
  {| TarotCard.id := TarotCard.id dbCard;
     TarotCard.name := TarotCard.name dbCard;
     TarotCard.arcana := TarotCard.arcana dbCard;
     TarotCard.suit := TarotCard.suit dbCard;
     TarotCard.number := TarotCard.number dbCard;
     TarotCard.keywords := TarotCard.keywords dbCard;
     TarotCard.uprightShort := TarotCard.uprightShort dbCard;
     TarotCard.uprightLong := TarotCard.uprightLong dbCard;
     TarotCard.reversedShort := TarotCard.reversedShort dbCard;
     TarotCard.reversedLong := TarotCard.reversedLong dbCard;
     TarotCard.imageUrl := TarotCard.imageUrl dbCard |}.

Definition convertDbCombinationRuleToFrontendRule (dbRule : CombinationRule.t)
    : CombinationRule.t :=
  {| CombinationRule.id := CombinationRule.id dbRule;
     CombinationRule.name := CombinationRule.name dbRule;
     CombinationRule.cardIds := CombinationRule.cardIds dbRule;
     CombinationRule.condition := CombinationRule.condition dbRule;
     CombinationRule.modifier := CombinationRule.modifier dbRule;
     CombinationRule.weight := CombinationRule.weight dbRule;
     CombinationRule.isActive := CombinationRule.isActive dbRule |}.

(** The handler on an accepted request, the storage calls succeeding. An
    error of the engine is caught and answered with status 500. *)
Definition interpretRoute (storage : Storage.t) (request : InterpretRequest.t) : Response.t :=
  match Storage.getSpread storage (InterpretRequest.spreadId request) with
  | None => {| Response.status := 404; Response.body := JsonMessage "Spread not found" |}
  | Some spread =>
      let allCards := Storage.getAllCards storage in
      let cardMap := cardMap_of allCards in
      (* Validate all cards exist *)
      match List.find (λ placedCard,
                         negb (bool_decide (is_Some (cardMap !! PlacedCard.cardId placedCard))))
                      (InterpretRequest.cards request) with
      | Some placedCard =>
          {| Response.status := 400;
             Response.body :=
               JsonMessage ("Card not found: " +:+ PlacedCard.cardId placedCard) |}
      | None =>
          let combinationRules := Storage.getAllCombinationRules storage in
          let frontendSpread := convertDbSpreadToFrontendSpread spread in
          let frontendCards := convertDbCardToFrontendCard <$> allCards in
          let frontendRules := convertDbCombinationRuleToFrontendRule <$> combinationRules in
          match interpretReading frontendSpread (InterpretRequest.cards request)
                  frontendCards frontendRules (InterpretRequest.options request) with
          | inr interpretation =>
              {| Response.status := 200; Response.body := JsonInterpretation interpretation |}
          | inl _ =>
              {| Response.status := 500;
                 Response.body := JsonMessage "Failed to interpret reading" |}
          end
      end
  end.

(** ** Notions used to state the properties *)

(** Two placed cards are neighbours when they carry different card ids and
    their position indices are at most 1 apart. *)
Definition neighbours (c cur : PlacedCard.t) : Prop :=
  PlacedCard.cardId c ≠ PlacedCard.cardId cur
  ∧ (Z.abs (PlacedCard.position c - PlacedCard.position cur) ≤ 1)%Z.

(** [p] is the spread position a placed card at index [z] lands on: a
    position of the spread whose index is [z], the first one in the spread's
    order should several carry that index. *)
Definition slot_of (spread : TarotSpread.t) (z : Z) (p : SpreadPosition.t) : Prop :=
  ∃ before after,
    TarotSpread.positions spread = before ++ p :: after
    ∧ SpreadPosition.index p = z
    ∧ ∀ q, q ∈ before → SpreadPosition.index q ≠ z.

(** A placed card resolves when its card id is the id of a catalog card and
    its position is the index of a spread position. *)
Definition resolves (spread : TarotSpread.t) (allCards : list TarotCard.t)
    (pc : PlacedCard.t) : Prop :=
  PlacedCard.cardId pc ∈ map TarotCard.id allCards
  ∧ PlacedCard.position pc ∈ map SpreadPosition.index (TarotSpread.positions spread).

(** The number of occurrences of [k] in [l]. *)
Fixpoint occurrences (k : string) (l : list string) : nat :=
  match l with
  | [] => 0
  | x :: l' => (if decide (x = k) then 1 else 0) + occurrences k l'
  end.

(** The offset at which [k] is first encountered in [l] (the length of [l]
    if it never is). *)
Fixpoint first_index (k : string) (l : list string) : nat :=
  match l with
  | [] => 0
  | x :: l' => if decide (x = k) then 0 else S (first_index k l')
  end.

(** [a] ranks before [b] in a tally of [l]: it occurs more often, or as
    often and is encountered first. *)
Definition ranks_before (l : list string) (a b : string) : Prop :=
  occurrences b l < occurrences a l
  ∨ (occurrences a l = occurrences b l ∧ first_index a l < first_index b l).

(** The suits of the cards that have one, in the order of the cards. *)
Definition suits_of (cards : list TarotCard.t) : list string :=
  omap (λ card, truthy_opt (TarotCard.suit card)) cards.

(** The catalog card that a card id names: the catalog card with that id,
    the last one in catalog order should several carry it. *)
Definition catalog_card (allCards : list TarotCard.t) (cardId : string) :
    option TarotCard.t :=
  last (filter (λ card, TarotCard.id card = cardId) allCards).

(** The suits met on going through the placed cards from the first to the
    last: a placed card whose id names a catalog card with a non-empty suit
    contributes that suit, any other placed card contributes nothing. *)
Fixpoint suits_in_placement_order (allCards : list TarotCard.t)
    (placedCards : list PlacedCard.t) : list string :=
  match placedCards with
  | [] => []
  | pc :: rest =>
      match catalog_card allCards (PlacedCard.cardId pc) ≫= TarotCard.suit with
      | Some (String c suit) => String c suit :: suits_in_placement_order allCards rest
      | Some EmptyString | None => suits_in_placement_order allCards rest
      end
  end.

(** The keywords met on going through the placed cards from the first to the
    last: a placed card whose id names a catalog card contributes the keywords
    of that card, in their order, any other placed card contributes nothing. *)
Fixpoint keywords_in_placement_order (allCards : list TarotCard.t)
    (placedCards : list PlacedCard.t) : list string :=
  match placedCards with
  | [] => []
  | pc :: rest =>
      match catalog_card allCards (PlacedCard.cardId pc) with
      | Some card => TarotCard.keywords card ++ keywords_in_placement_order allCards rest
      | None => keywords_in_placement_order allCards rest
      end
  end.

(** The same order on the entries of a tally of [l], read off the counts
    the entries carry. *)
Definition entry_before (l : list string) (e1 e2 : string * nat) : Prop :=
  e2.2 < e1.2 ∨ (e1.2 = e2.2 ∧ first_index e1.1 l < first_index e2.1 l).

(** The overall summary as a concatenation of clauses in the fixed order of
    the design document: the Major Arcana clause, the dominant-suit clause, the
    reversed-cards clause when [reversedClause] holds, and the closing
    sentence. *)
Definition summary_of_clauses (majorArcanaCount : nat) (dominantSuit : option string)
    (reversedClause : bool) : string :=
  (if decide (3 ≤ majorArcanaCount)
   then "This reading reveals significant life changes and spiritual themes. "
   else if decide (1 ≤ majorArcanaCount)
   then "Important life lessons and personal growth are highlighted. "
   else "")
  +:+ match dominantSuit with
      | Some suit => "The focus is on " +:+ getSuitTheme suit +:+ ". "
      | None => ""
      end
  +:+ (if reversedClause
       then "Many reversed cards suggest internal work and reflection are needed. "
       else "")
  +:+ "Trust your intuition as you interpret these messages for your path forward.".

(** The draws are what [Math.random] promises: at least 0, below 1. *)
Definition unit_draws (random : nat → Q) : Prop :=
  ∀ n, (0 <= random n)%Q ∧ (random n < 1)%Q.

(** No card id is placed twice and no position holds two cards. *)
Definition well_placed (placedCards : list PlacedCard.t) : Prop :=
  NoDup (PlacedCard.cardId <$> placedCards)
  ∧ NoDup (PlacedCard.position <$> placedCards).

(** A draw that makes [Math.floor(r * n)] come out as [j]. *)
Definition draw_for (j n : nat) : Q := inject_Z (Z.of_nat j) / inject_Z (Z.of_nat n).

(** ** A sample reading *)

Module Sample.
Definition fool : TarotCard.t :=
  {| TarotCard.id := "major-0"; TarotCard.name := "The Fool"; TarotCard.arcana := Major;
     TarotCard.suit := None; TarotCard.number := Some 0%Z;
     TarotCard.keywords := ["beginnings"; "balance"];
     TarotCard.uprightShort := "New beginnings."; TarotCard.uprightLong := "A leap of faith.";
     TarotCard.reversedShort := "Recklessness."; TarotCard.reversedLong := "Poor judgment.";
     TarotCard.imageUrl := None |}.

Definition aceOfCups : TarotCard.t :=
  {| TarotCard.id := "cups-1"; TarotCard.name := "Ace of Cups"; TarotCard.arcana := Minor;
     TarotCard.suit := Some "cups"; TarotCard.number := Some 1%Z;
     TarotCard.keywords := ["love"; "balance"; "intuition"];
     TarotCard.uprightShort := "New feelings."; TarotCard.uprightLong := "An open heart.";
     TarotCard.reversedShort := "Blocked feelings.";
     TarotCard.reversedLong := "Emotions held back.";
     TarotCard.imageUrl := None |}.

Definition twoOfWands : TarotCard.t :=
  {| TarotCard.id := "wands-2"; TarotCard.name := "Two of Wands"; TarotCard.arcana := Minor;
     TarotCard.suit := Some "wands"; TarotCard.number := Some 2%Z;
     TarotCard.keywords := ["planning"; "love"];
     TarotCard.uprightShort := "Plans."; TarotCard.uprightLong := "Looking ahead.";
     TarotCard.reversedShort := "Fear of change."; TarotCard.reversedLong := "Playing safe.";
     TarotCard.imageUrl := None |}.

Definition catalog : list TarotCard.t := [fool; aceOfCups; twoOfWands].

Definition position (index : Z) (name roleHint : string) : SpreadPosition.t :=
  {| SpreadPosition.index := index; SpreadPosition.name := name;
     SpreadPosition.roleHint := roleHint;
     SpreadPosition.x := None; SpreadPosition.y := None |}.

Definition threeCards : TarotSpread.t :=
  {| TarotSpread.id := "three-card"; TarotSpread.name := "Past, Present, Future";
     TarotSpread.description := None;
     TarotSpread.positions :=
       [position 0 "Past" "What has been"; position 1 "Present" "What is";
        position 2 "Future" "What may come"];
     TarotSpread.layoutHints := None |}.

Definition place (cardId : string) (orientation : Orientation) (position : Z)
    : PlacedCard.t :=
  {| PlacedCard.cardId := cardId; PlacedCard.orientation := orientation;
     PlacedCard.position := position; PlacedCard.x := None; PlacedCard.y := None |}.

Definition placed : list PlacedCard.t :=
  [place "major-0" upright 0; place "cups-1" reversed 1; place "wands-2" upright 2].
End Sample.

(** * Properties *)

(** ** The card lookup *)

Section CardMap.
Implicit Types (allCards : list TarotCard.t) (m : gmap string TarotCard.t).

Lemma cardMap_fold_lookup allCards m k c :
  fold_left (λ m c, <[TarotCard.id c := c]> m) allCards m !! k = Some c →
  (c ∈ allCards ∧ TarotCard.id c = k) ∨ m !! k = Some c.
Proof.
  revert m. induction allCards as [|c0 l IH]; intros m H; simpl in H.
  - by right.
  - apply IH in H as [[Hin Hid]|H].
    + left. split; [by apply list_elem_of_further | done].
    + destruct (decide (TarotCard.id c0 = k)) as [Heq|Hne].
      * rewrite Heq, lookup_insert_eq in H. injection H as <-.
        left. split; [apply list_elem_of_here | done].
      * rewrite lookup_insert_ne in H; [|done]. by right.
Qed.

Lemma cardMap_fold_is_Some allCards m k :
  is_Some (fold_left (λ m c, <[TarotCard.id c := c]> m) allCards m !! k)
  ↔ k ∈ map TarotCard.id allCards ∨ is_Some (m !! k).
Proof.
  revert m. induction allCards as [|c0 l IH]; intros m; simpl.
  - rewrite elem_of_nil. tauto.
  - rewrite IH, elem_of_cons, lookup_insert. case_decide; subst.
    + split; [intros _; by left; left | intros _; right; by eexists].
    + split; [intros [?|?]; tauto | intros [[?|?]|?]; [congruence | tauto..]].
Qed.

(** A card found under a key carries that key as its id and comes from the
    catalog. *)
Lemma cardMap_of_lookup allCards k c :
  cardMap_of allCards !! k = Some c → c ∈ allCards ∧ TarotCard.id c = k.
Proof.
  intros H. apply cardMap_fold_lookup in H as [?|H]; [done|].
  by rewrite lookup_empty in H.
Qed.

(** The keys of the lookup are the ids of the catalog. *)
Lemma cardMap_of_is_Some allCards k :
  is_Some (cardMap_of allCards !! k) ↔ k ∈ map TarotCard.id allCards.
Proof.
  unfold cardMap_of. rewrite cardMap_fold_is_Some, lookup_empty.
  split; [intros [?|[? ?]]; done | by left].
Qed.

(** The lookup finds under an id the last catalog card that carries it. *)
Lemma cardMap_of_catalog_card allCards k :
  cardMap_of allCards !! k = catalog_card allCards k.
Proof.
  unfold cardMap_of, catalog_card.
  induction allCards as [|c l IH] using rev_ind;
    [cbn [fold_left]; by rewrite lookup_empty, filter_nil|].
  rewrite fold_left_app, filter_app. cbn [fold_left].
  destruct (decide (TarotCard.id c = k)) as [Heq|Hne].
  - rewrite Heq, lookup_insert_eq, filter_cons_True by done.
    rewrite filter_nil. by rewrite last_snoc.
  - rewrite lookup_insert_ne, filter_cons_False, filter_nil, app_nil_r by done.
    exact IH.
Qed.
End CardMap.

(** ** Maps that may throw *)

Section MapThrowing.
Context {A B : Type} (f : A → result B).

Lemma map_throwing_inr l bs :
  map_throwing f l = inr bs → Forall2 (λ a b, f a = inr b) l bs.
Proof.
  revert bs. induction l as [|a l IH]; intros bs H; simpl in H.
  - injection H as <-. constructor.
  - destruct (f a) as [e|b] eqn:Hfa; [done|]. simpl in H.
    destruct (map_throwing f l) as [e|bs'] eqn:Hl; [done|]. simpl in H.
    injection H as <-. constructor; [done | by apply IH].
Qed.

Lemma map_throwing_inl l e :
  map_throwing f l = inl e → ∃ a, a ∈ l ∧ f a = inl e.
Proof.
  induction l as [|a l IH]; intros H; simpl in H; [done|].
  destruct (f a) as [e'|b] eqn:Hfa; simpl in H.
  - injection H as <-. exists a. split; [apply list_elem_of_here | done].
  - destruct (map_throwing f l) as [e'|bs'] eqn:Hl; [|done]. simpl in H.
    injection H as <-. destruct IH as (a' & Hin & Ha'); [done|].
    exists a'. split; [by apply list_elem_of_further | done].
Qed.

Lemma map_throwing_total l :
  (∀ a, a ∈ l → ∃ b, f a = inr b) → ∃ bs, map_throwing f l = inr bs.
Proof.
  induction l as [|a l IH]; intros H; simpl.
  - by eexists.
  - destruct (H a) as [b Hb]; [apply list_elem_of_here|]. rewrite Hb. simpl.
    destruct IH as [bs Hbs].
    { intros a' Hin. apply H. by apply list_elem_of_further. }
    rewrite Hbs. simpl. by eexists.
Qed.
End MapThrowing.

(** ** Base interpretation *)

(** C3. The base interpretation pair of a card: upright takes the upright
    texts verbatim whatever the reversal mode; reversed under [strong] takes the
    reversed texts verbatim; reversed under [soft] appends the literal
    [" (blocked or internal)"] to the reversed short text and the sentence
    naming the card to the reversed long text. The mode is [soft] when the
    options, or their [reversalMode], are omitted, and the given mode
    otherwise. *)
Theorem getBaseInterpretation_cases (card : TarotCard.t) :
  (∀ mode,
     getBaseInterpretation card upright mode =
     {| BaseInterpretation.short := TarotCard.uprightShort card;
        BaseInterpretation.long := TarotCard.uprightLong card |})
  ∧ getBaseInterpretation card reversed strong =
    {| BaseInterpretation.short := TarotCard.reversedShort card;
       BaseInterpretation.long := TarotCard.reversedLong card |}
  ∧ getBaseInterpretation card reversed soft =
    {| BaseInterpretation.short := TarotCard.reversedShort card +:+ " (blocked or internal)";
       BaseInterpretation.long :=
         TarotCard.reversedLong card +:+ " The energy of " +:+ TarotCard.name card
         +:+ " is present but may be blocked, internalized, or manifesting in a subtle way." |}
  ∧ reversalMode_of None = soft
  ∧ reversalMode_of (Some {| InterpretationOptions.reversalMode := None |}) = soft
  ∧ (∀ mode,
       reversalMode_of (Some {| InterpretationOptions.reversalMode := Some mode |}) = mode).
Proof.
  unfold reversalMode_of. repeat split.
Qed.

(** ** The empty reading *)

(** C4. With no placed card the engine succeeds, whatever the spread, the
    catalog, the rules and the options, and returns the empty result whose
    summary is the closing sentence alone. *)
Theorem interpretReading_empty (spread : TarotSpread.t) (allCards : list TarotCard.t)
    (combinationRules : list CombinationRule.t) (options : option InterpretationOptions.t) :
  interpretReading spread [] allCards combinationRules options =
  inr {| InterpretationResult.positions := [];
         InterpretationResult.overallSummary :=
           "Trust your intuition as you interpret these messages for your path forward.";
         InterpretationResult.keywords := [];
         InterpretationResult.confidenceHints := [];
         InterpretationResult.suggestedActions := [];
         InterpretationResult.dominantSuit := None;
         InterpretationResult.majorArcanaCount := 0;
         InterpretationResult.reversedCount := 0 |}.
Proof. reflexivity. Qed.

(** ** The rule catalog *)

(** C8. The combination rules are passed down to the overall analysis and
    never read: two calls that differ only in the rules return the same
    result (or the same error). *)
Theorem interpretReading_ignores_rules (spread : TarotSpread.t)
    (placedCards : list PlacedCard.t) (allCards : list TarotCard.t)
    (rules1 rules2 : list CombinationRule.t) (options : option InterpretationOptions.t) :
  interpretReading spread placedCards allCards rules1 options =
  interpretReading spread placedCards allCards rules2 options.
Proof.
  unfold interpretReading.
  destruct (map_throwing _ placedCards) as [e|positions]; reflexivity.
Qed.

(** ** Adjacency *)

Section Adjacency.
Context (spread : TarotSpread.t).
Implicit Types (placedCards : list PlacedCard.t) (cur c : PlacedCard.t).

Lemma neighbours_sym c cur : neighbours c cur → neighbours cur c.
Proof. unfold neighbours. intros [Hid Hpos]. split; [congruence | lia]. Qed.

Lemma elem_of_getAdjacentCards placedCards cur c :
  c ∈ getAdjacentCards placedCards cur spread ↔ c ∈ placedCards ∧ neighbours c cur.
Proof. unfold getAdjacentCards. rewrite list_elem_of_filter. unfold neighbours. tauto. Qed.

(** An entry with the id of the current card is dropped by the filter,
    wherever it sits in the list. *)
Lemma getAdjacentCards_drop placedCards1 placedCards2 cur c :
  PlacedCard.cardId c = PlacedCard.cardId cur →
  getAdjacentCards (placedCards1 ++ c :: placedCards2) cur spread =
  getAdjacentCards (placedCards1 ++ placedCards2) cur spread.
Proof.
  intros Hid. unfold getAdjacentCards.
  rewrite !filter_app, filter_cons.
  case_decide as H; [|done]. by destruct H.
Qed.

(** When no card id is placed twice (the invariant of a reading), the
    entries with another card id are the other entries. *)
Lemma cardId_ne_iff placedCards cur c :
  NoDup (PlacedCard.cardId <$> placedCards) →
  cur ∈ placedCards → c ∈ placedCards →
  PlacedCard.cardId c ≠ PlacedCard.cardId cur ↔ c ≠ cur.
Proof.
  intros Hnd Hcur Hc. split; [congruence|].
  intros Hne Hid. apply Hne. clear Hne.
  induction placedCards as [|pc l IH]; [by apply elem_of_nil in Hc|].
  rewrite fmap_cons in Hnd. apply NoDup_cons in Hnd as [Hpc Hnd].
  apply elem_of_cons in Hcur as [->|Hcur], Hc as [->|Hc]; [done|..].
  - destruct Hpc. rewrite <- Hid. by apply list_elem_of_fmap_2.
  - destruct Hpc. rewrite Hid. by apply list_elem_of_fmap_2.
  - by apply IH.
Qed.
End Adjacency.

(** C7, as stated, fails when one card id is placed twice: a second entry
    for The Fool, reversed and on the next position, is another placed card at
    most 1 away from the first entry, and yet it is not in the adjacency set of
    the first entry. *)
Lemma getAdjacentCards_as_stated_fails :
  let a := Sample.place "major-0" upright 0 in
  let b := Sample.place "major-0" reversed 1 in
  let placedCards := [a; b] in
  a ∈ placedCards ∧ b ∈ placedCards
  ∧ b ≠ a
  ∧ (Z.abs (PlacedCard.position b - PlacedCard.position a) ≤ 1)%Z
  ∧ (b ∉ getAdjacentCards placedCards a Sample.threeCards)
  ∧ ¬ (∀ c, c ∈ getAdjacentCards placedCards a Sample.threeCards
            ↔ c ∈ placedCards
              ∧ c ≠ a
              ∧ (Z.abs (PlacedCard.position c - PlacedCard.position a) ≤ 1)%Z).
Proof.
  intros a b placedCards.
  assert (b ∈ placedCards) as Hb by (apply list_elem_of_further, list_elem_of_here).
  assert (b ≠ a) as Hne by (intros [=]).
  assert (Z.abs (PlacedCard.position b - PlacedCard.position a) ≤ 1)%Z as Hpos
    by (simpl; lia).
  assert (b ∉ getAdjacentCards placedCards a Sample.threeCards) as Hout.
  { unfold getAdjacentCards. rewrite list_elem_of_filter. by intros [[Hid _] _]. }
  split; [apply list_elem_of_here|]. split; [exact Hb|]. split; [exact Hne|].
  split; [exact Hpos|]. split; [exact Hout|].
  intros Hall. by apply Hout, Hall.
Qed.

(** C7, amended. The adjacency set of a placed card holds exactly the placed
    cards with another card id whose position index is at most 1 away from
    its own; when no card id is placed twice these are exactly the other placed
    cards at most 1 away. Adjacency is symmetric: of two placed cards, the first is in
    the adjacency set of the second exactly when the second is in the adjacency
    set of the first, and two placed cards with different ids within distance 1
    are in each other's set. *)
Theorem getAdjacentCards_symmetric (spread : TarotSpread.t)
    (placedCards : list PlacedCard.t) (a b : PlacedCard.t) :
  a ∈ placedCards → b ∈ placedCards →
  (∀ cur c,
     c ∈ getAdjacentCards placedCards cur spread
     ↔ c ∈ placedCards
       ∧ PlacedCard.cardId c ≠ PlacedCard.cardId cur
       ∧ (Z.abs (PlacedCard.position c - PlacedCard.position cur) ≤ 1)%Z)
  ∧ (NoDup (PlacedCard.cardId <$> placedCards) →
     ∀ c,
       c ∈ getAdjacentCards placedCards a spread
       ↔ c ∈ placedCards
         ∧ c ≠ a
         ∧ (Z.abs (PlacedCard.position c - PlacedCard.position a) ≤ 1)%Z)
  ∧ (a ∈ getAdjacentCards placedCards b spread ↔ b ∈ getAdjacentCards placedCards a spread)
  ∧ ((Z.abs (PlacedCard.position a - PlacedCard.position b) ≤ 1)%Z →
     PlacedCard.cardId a ≠ PlacedCard.cardId b →
     a ∈ getAdjacentCards placedCards b spread ∧ b ∈ getAdjacentCards placedCards a spread).
Proof.
  intros Ha Hb. split; [|split; [|split]].
  - intros cur c. apply elem_of_getAdjacentCards.
  - intros Hnd c. rewrite elem_of_getAdjacentCards. unfold neighbours.
    split; intros (Hc & Hne & Hpos); (split; [done|]); (split; [|done]);
      by apply (cardId_ne_iff placedCards a c Hnd Ha Hc).
  - rewrite !elem_of_getAdjacentCards.
    split; intros [_ H]; (split; [done | by apply neighbours_sym]).
  - intros Hpos Hid. rewrite !elem_of_getAdjacentCards.
    assert (neighbours a b) as H by done.
    split; (split; [done|]); [done | by apply neighbours_sym].
Qed.

(** C10. Self-exclusion compares card ids: an entry that carries the card
    id of the current card is never in its adjacency set, whatever its
    position, and taking such an entry out of the placed cards changes neither
    the adjacent cards nor the suit, Major Arcana and reversed counts taken
    over them, nor the adjacency text. *)
Theorem same_cardId_not_adjacent (spread : TarotSpread.t)
    (cardMap : gmap string TarotCard.t) (before after : list PlacedCard.t)
    (cur c : PlacedCard.t) :
  PlacedCard.cardId c = PlacedCard.cardId cur →
  (c ∉ getAdjacentCards (before ++ c :: after) cur spread)
  ∧ getAdjacentCards (before ++ c :: after) cur spread =
    getAdjacentCards (before ++ after) cur spread
  ∧ (∀ suit,
       sameSuitCount cardMap suit (getAdjacentCards (before ++ c :: after) cur spread) =
       sameSuitCount cardMap suit (getAdjacentCards (before ++ after) cur spread))
  ∧ adjacentMajorCount cardMap (getAdjacentCards (before ++ c :: after) cur spread) =
    adjacentMajorCount cardMap (getAdjacentCards (before ++ after) cur spread)
  ∧ adjacentReversedCount (getAdjacentCards (before ++ c :: after) cur spread) =
    adjacentReversedCount (getAdjacentCards (before ++ after) cur spread)
  ∧ getAdjacencyInfluence (before ++ c :: after) cur cardMap spread =
    getAdjacencyInfluence (before ++ after) cur cardMap spread.
Proof.
  intros Hid.
  pose proof (getAdjacentCards_drop spread before after cur c Hid) as Hdrop.
  split.
  - rewrite elem_of_getAdjacentCards. intros [_ [Hne _]]. by apply Hne.
  - unfold getAdjacencyInfluence. rewrite Hdrop. repeat split.
Qed.

(** ** Dealing *)

Section Deal.
Context (random : nat → Q) (shuffledCards : list TarotCard.t) (spread : TarotSpread.t).

(** Every dealt entry is built from the shuffled card and the spread
    position at its own offset; no lookup of a shuffled card misses. *)
Lemma dealCards_entries :
  ∃ dealt,
    dealCards random shuffledCards spread = Some dealt
    ∧ length dealt = length (take (length shuffledCards) (TarotSpread.positions spread))
    ∧ ∀ i, i < length dealt →
        ∃ pc card p,
          dealt !! i = Some pc
          ∧ shuffledCards !! i = Some card
          ∧ TarotSpread.positions spread !! i = Some p
          ∧ PlacedCard.cardId pc = TarotCard.id card
          ∧ PlacedCard.position pc = SpreadPosition.index p.
Proof.
  unfold dealCards.
  set (ps := take (length shuffledCards) (TarotSpread.positions spread)).
  match goal with |- context [mapM ?g _] => set (f := g) end.
  assert (∀ i p, ps !! i = Some p →
            ∃ card, shuffledCards !! i = Some card
                    ∧ TarotSpread.positions spread !! i = Some p) as Hps.
  { intros i p Hi. apply lookup_take_Some in Hi as [Hp Hlt].
    destruct (lookup_lt_is_Some_2 shuffledCards i Hlt) as [card Hcard]. eauto. }
  destruct (mapM f (imap pair ps)) as [dealt|] eqn:Hdealt.
  - exists dealt. split; [done|].
    apply mapM_Some_1 in Hdealt.
    pose proof (Forall2_length _ _ _ Hdealt) as Hlen. rewrite length_imap in Hlen.
    split; [done|]. intros i Hi.
    destruct (lookup_lt_is_Some_2 dealt i Hi) as [pc Hpc].
    destruct (Forall2_lookup_r _ _ _ _ _ Hdealt Hpc) as ([j p] & Hjp & Hf).
    rewrite list_lookup_imap in Hjp.
    destruct (ps !! i) as [p'|] eqn:Hp'; [|done]. simpl in Hjp.
    injection Hjp as <- <-.
    destruct (Hps i p' Hp') as (card & Hcard & Hpos).
    exists pc, card, p'. unfold f in Hf. rewrite Hcard in Hf. simpl in Hf.
    injection Hf as <-. done.
  - exfalso. apply mapM_None_1 in Hdealt.
    apply Exists_exists in Hdealt as ([i p] & Hin & Hf).
    apply list_elem_of_lookup in Hin as [j Hj].
    rewrite list_lookup_imap in Hj.
    destruct (ps !! j) as [p'|] eqn:Hp'; [|done]. simpl in Hj.
    injection Hj as <- <-.
    destruct (Hps j p' Hp') as (card & Hcard & _).
    unfold f in Hf. by rewrite Hcard in Hf.
Qed.
End Deal.

(** C9. Dealing always succeeds and zips the shortest: the number of
    entries is the smaller of the number of shuffled cards and the number of
    spread positions, the card ids of the entries are the ids of that many
    leading shuffled cards, and their positions are the indices of that many
    leading spread positions (the spread's numbering, not the offsets). *)
Theorem dealCards_zips_shortest (random : nat → Q) (shuffledCards : list TarotCard.t)
    (spread : TarotSpread.t) :
  ∃ dealt,
    dealCards random shuffledCards spread = Some dealt
    ∧ length dealt = length shuffledCards `min` length (TarotSpread.positions spread)
    ∧ PlacedCard.cardId <$> dealt = TarotCard.id <$> take (length dealt) shuffledCards
    ∧ PlacedCard.position <$> dealt =
      SpreadPosition.index <$> take (length dealt) (TarotSpread.positions spread).
Proof.
  destruct (dealCards_entries random shuffledCards spread) as (dealt & Hdeal & Hlen & Hent).
  exists dealt. split; [done|].
  rewrite length_take in Hlen. split; [done|].
  assert (∀ i, length dealt ≤ i → dealt !! i = None) as Hge
    by (intros; by apply lookup_ge_None_2).
  split; apply list_eq; intros i; rewrite !list_lookup_fmap;
    (destruct (decide (i < length dealt)) as [Hi|Hi];
     [ destruct (Hent i Hi) as (pc & card & p & -> & Hcard & Hp & Hid & Hpos);
       rewrite lookup_take_lt by done; rewrite ?Hcard, ?Hp; simpl; congruence
     | rewrite Hge by lia; rewrite lookup_take_ge by lia; done ]).
Qed.

(** ** Per-position interpretation *)

Section Positions.
Context (spread : TarotSpread.t).

Lemma findPosition_Some z p : findPosition spread z = Some p → slot_of spread z p.
Proof.
  unfold findPosition, slot_of.
  induction (TarotSpread.positions spread) as [|q l IH]; simpl; [done|].
  destruct (Z.eqb_spec (SpreadPosition.index q) z) as [Heq|Hne].
  - intros [= ->]. exists [], l. split; [done|]. split; [done|].
    intros q' Hq'. by apply elem_of_nil in Hq'.
  - intros H. destruct (IH H) as (before & after & -> & Hidx & Hbefore).
    exists (q :: before), after. split; [done|]. split; [done|].
    intros q' [->|Hq']%elem_of_cons; [done | by apply Hbefore].
Qed.

Lemma findPosition_is_Some z :
  is_Some (findPosition spread z)
  ↔ z ∈ map SpreadPosition.index (TarotSpread.positions spread).
Proof.
  unfold findPosition.
  induction (TarotSpread.positions spread) as [|q l IH]; simpl.
  - rewrite elem_of_nil. split; [by intros [? ?] | done].
  - rewrite elem_of_cons.
    destruct (Z.eqb_spec (SpreadPosition.index q) z) as [Heq|Hne].
    + split; [by left | by eexists].
    + rewrite IH. split; [by right | intros [?|?]; [congruence | done]].
Qed.

Context (placedCards : list PlacedCard.t) (allCards : list TarotCard.t)
        (reversalMode : ReversalMode).

Lemma interpretPosition_inr pc e :
  interpretPosition spread placedCards (cardMap_of allCards) reversalMode pc = inr e →
  resolves spread allCards pc
  ∧ PositionReading.cardId e = PlacedCard.cardId pc
  ∧ PositionReading.orientation e = PlacedCard.orientation pc
  ∧ ∃ p, slot_of spread (PlacedCard.position pc) p
         ∧ PositionReading.slotName e = SpreadPosition.name p.
Proof.
  unfold interpretPosition, resolves.
  destruct (cardMap_of allCards !! PlacedCard.cardId pc) as [card|] eqn:Hcard; [|done].
  destruct (findPosition spread (PlacedCard.position pc)) as [p|] eqn:Hp; [|done].
  simpl. intros [= <-]. simpl.
  apply cardMap_of_lookup in Hcard as Hid. destruct Hid as [_ Hid].
  split; [split|].
  - apply cardMap_of_is_Some. by eexists.
  - apply findPosition_is_Some. by eexists.
  - split; [done|]. split; [done|]. exists p. split; [by apply findPosition_Some | done].
Qed.

Lemma interpretPosition_inl pc err :
  interpretPosition spread placedCards (cardMap_of allCards) reversalMode pc = inl err →
  (err = CardNotFound (PlacedCard.cardId pc)
   ∧ PlacedCard.cardId pc ∉ map TarotCard.id allCards)
  ∨ (err = PositionNotFound (PlacedCard.position pc)
     ∧ PlacedCard.position pc ∉ map SpreadPosition.index (TarotSpread.positions spread)).
Proof.
  unfold interpretPosition.
  destruct (cardMap_of allCards !! PlacedCard.cardId pc) as [card|] eqn:Hcard.
  - destruct (findPosition spread (PlacedCard.position pc)) as [p|] eqn:Hp; [done|].
    simpl. intros [= <-]. right. split; [done|].
    rewrite <- findPosition_is_Some, Hp. by intros [? ?].
  - simpl. intros [= <-]. left. split; [done|].
    rewrite <- cardMap_of_is_Some, Hcard. by intros [? ?].
Qed.

(** The texts of an entry are composed from the base interpretation pair of
    the resolved card under the reversal mode in force. *)
Lemma interpretPosition_texts pc e :
  interpretPosition spread placedCards (cardMap_of allCards) reversalMode pc = inr e →
  ∃ card p,
    cardMap_of allCards !! PlacedCard.cardId pc = Some card
    ∧ findPosition spread (PlacedCard.position pc) = Some p
    ∧ PositionReading.interpretationShort e
      = composeShortInterpretation p card (PlacedCard.orientation pc)
          (BaseInterpretation.short
             (getBaseInterpretation card (PlacedCard.orientation pc) reversalMode))
          (getPositionModifier p card (PlacedCard.orientation pc))
    ∧ PositionReading.interpretationLong e
      = composeLongInterpretation p card (PlacedCard.orientation pc)
          (BaseInterpretation.long
             (getBaseInterpretation card (PlacedCard.orientation pc) reversalMode))
          (getPositionModifier p card (PlacedCard.orientation pc))
          (getAdjacencyInfluence placedCards pc (cardMap_of allCards) spread).
Proof.
  unfold interpretPosition.
  destruct (cardMap_of allCards !! PlacedCard.cardId pc) as [card|]; [|done].
  destruct (findPosition spread (PlacedCard.position pc)) as [p|]; [|done].
  simpl. intros [= <-]. by exists card, p.
Qed.

Lemma interpretPosition_total pc :
  resolves spread allCards pc →
  ∃ e, interpretPosition spread placedCards (cardMap_of allCards) reversalMode pc = inr e.
Proof.
  intros [Hcard Hpos]. unfold interpretPosition.
  apply cardMap_of_is_Some in Hcard as [card ->].
  apply findPosition_is_Some in Hpos as [p ->]. simpl. by eexists.
Qed.
End Positions.

Lemma interpretReading_inr spread placedCards allCards combinationRules options r :
  interpretReading spread placedCards allCards combinationRules options = inr r →
  map_throwing (interpretPosition spread placedCards (cardMap_of allCards)
                  (reversalMode_of options)) placedCards
  = inr (InterpretationResult.positions r).
Proof.
  unfold interpretReading.
  destruct (map_throwing _ placedCards) as [e|positions]; [done|].
  simpl. by intros [= <-].
Qed.

Lemma interpretReading_inl spread placedCards allCards combinationRules options e :
  interpretReading spread placedCards allCards combinationRules options = inl e ↔
  map_throwing (interpretPosition spread placedCards (cardMap_of allCards)
                  (reversalMode_of options)) placedCards
  = inl e.
Proof.
  unfold interpretReading.
  destruct (map_throwing _ placedCards) as [e'|positions]; simpl.
  - split; intros [= <-]; reflexivity.
  - split; intros [=].
Qed.

Lemma interpretReading_total spread placedCards allCards combinationRules options :
  (∀ pc, pc ∈ placedCards → resolves spread allCards pc) →
  ∃ r, interpretReading spread placedCards allCards combinationRules options = inr r.
Proof.
  intros H. unfold interpretReading.
  destruct (map_throwing_total
              (interpretPosition spread placedCards (cardMap_of allCards)
                 (reversalMode_of options)) placedCards) as [positions ->].
  - intros pc Hpc. by apply interpretPosition_total, H.
  - simpl. by eexists.
Qed.

(** C1. When every placed card resolves (its card id in the catalog and its
    position among the spread's indices), the engine returns a result whose
    positions list has one entry per placed card, in the order of the placed
    cards; the entry at each offset carries the card id and the orientation of
    the placed card at that offset, and as slot name the name of the spread
    position bearing the placed card's position index. *)
Theorem interpretReading_positions (spread : TarotSpread.t)
    (placedCards : list PlacedCard.t) (allCards : list TarotCard.t)
    (combinationRules : list CombinationRule.t) (options : option InterpretationOptions.t) :
  (∀ pc, pc ∈ placedCards → PlacedCard.cardId pc ∈ map TarotCard.id allCards) →
  (∀ pc, pc ∈ placedCards →
     PlacedCard.position pc ∈ map SpreadPosition.index (TarotSpread.positions spread)) →
  ∃ r,
    interpretReading spread placedCards allCards combinationRules options = inr r
    ∧ length (InterpretationResult.positions r) = length placedCards
    ∧ Forall2 (λ pc e,
                 PositionReading.cardId e = PlacedCard.cardId pc
                 ∧ PositionReading.orientation e = PlacedCard.orientation pc
                 ∧ ∃ p, slot_of spread (PlacedCard.position pc) p
                        ∧ PositionReading.slotName e = SpreadPosition.name p)
              placedCards (InterpretationResult.positions r).
Proof.
  intros Hcards Hpos.
  destruct (interpretReading_total spread placedCards allCards combinationRules options)
    as [r Hr].
  { intros pc Hpc. split; [by apply Hcards | by apply Hpos]. }
  exists r. split; [done|].
  apply interpretReading_inr, map_throwing_inr in Hr.
  split; [symmetry; by eapply Forall2_length|].
  eapply Forall2_impl; [exact Hr|].
  intros pc e He. simpl in He. by apply interpretPosition_inr in He as (_ & ? & ? & ?).
Qed.

(** C2. The engine fails exactly when some placed card does not resolve:
    its card id is in no catalog card or its position is no index of the
    spread. The error names that card id or that position. A call returns
    either an error or a whole result, never both and never a part of a
    result; it returns a result exactly when every placed card resolves. *)
Theorem interpretReading_fails_iff (spread : TarotSpread.t)
    (placedCards : list PlacedCard.t) (allCards : list TarotCard.t)
    (combinationRules : list CombinationRule.t) (options : option InterpretationOptions.t) :
  ((∃ err, interpretReading spread placedCards allCards combinationRules options = inl err)
   ↔ ∃ pc, pc ∈ placedCards
           ∧ (PlacedCard.cardId pc ∉ map TarotCard.id allCards
              ∨ PlacedCard.position pc
                ∉ map SpreadPosition.index (TarotSpread.positions spread)))
  ∧ (∀ err,
       interpretReading spread placedCards allCards combinationRules options = inl err →
       (∀ r, interpretReading spread placedCards allCards combinationRules options ≠ inr r)
       ∧ ∃ pc, pc ∈ placedCards
               ∧ ((err = CardNotFound (PlacedCard.cardId pc)
                   ∧ PlacedCard.cardId pc ∉ map TarotCard.id allCards)
                  ∨ (err = PositionNotFound (PlacedCard.position pc)
                     ∧ PlacedCard.position pc
                       ∉ map SpreadPosition.index (TarotSpread.positions spread))))
  ∧ ((∃ r, interpretReading spread placedCards allCards combinationRules options = inr r)
     ↔ ∀ pc, pc ∈ placedCards →
             PlacedCard.cardId pc ∈ map TarotCard.id allCards
             ∧ PlacedCard.position pc
               ∈ map SpreadPosition.index (TarotSpread.positions spread)).
Proof.
  assert (∀ err,
            interpretReading spread placedCards allCards combinationRules options = inl err →
            ∃ pc, pc ∈ placedCards
                  ∧ ((err = CardNotFound (PlacedCard.cardId pc)
                      ∧ PlacedCard.cardId pc ∉ map TarotCard.id allCards)
                     ∨ (err = PositionNotFound (PlacedCard.position pc)
                        ∧ PlacedCard.position pc
                          ∉ map SpreadPosition.index (TarotSpread.positions spread))))
    as Hinl.
  { intros err Herr. apply interpretReading_inl, map_throwing_inl in Herr as (pc & Hpc & Herr).
    exists pc. split; [done|]. by eapply interpretPosition_inl. }
  assert (∀ r,
            interpretReading spread placedCards allCards combinationRules options = inr r →
            ∀ pc, pc ∈ placedCards → resolves spread allCards pc) as Hinr.
  { intros r Hr pc Hpc. apply interpretReading_inr, map_throwing_inr in Hr.
    apply list_elem_of_lookup in Hpc as [i Hi].
    destruct (Forall2_lookup_l _ _ _ _ _ Hr Hi) as (e & _ & He).
    by apply interpretPosition_inr in He as [? _]. }
  split; [|split].
  - split.
    + intros [err Herr]. destruct (Hinl err Herr) as (pc & Hpc & [[_ ?]|[_ ?]]); eauto.
    + intros (pc & Hpc & Hbad).
      destruct (interpretReading spread placedCards allCards combinationRules options)
        as [err|r] eqn:Hrun; [by eexists|].
      destruct (Hinr r eq_refl pc Hpc) as [? ?]. by destruct Hbad.
  - intros err Herr. split; [|by apply Hinl].
    intros r Hr. rewrite Herr in Hr. discriminate.
  - split.
    + intros [r Hr] pc Hpc. by apply (Hinr r Hr).
    + intros Hall. by apply interpretReading_total.
Qed.

(** ** Tallies *)

Section Tally.
Implicit Types (m : tally) (k : string) (l : list string).

Lemma StronglySorted_impl_elem_of {A} (R R' : relation A) (xs : list A) :
  StronglySorted R xs →
  (∀ a b, a ∈ xs → b ∈ xs → R a b → R' a b) →
  StronglySorted R' xs.
Proof.
  induction 1 as [|a xs Hs IH Hall]; intros Himpl; constructor.
  - apply IH. intros b c Hb Hc. apply Himpl; by apply list_elem_of_further.
  - apply Forall_forall. intros b Hb. apply Himpl.
    + apply list_elem_of_here.
    + by apply list_elem_of_further.
    + by eapply Forall_forall in Hall.
Qed.

Lemma tally_get_set k' k v m :
  tally_get k' (tally_set k v m) = if decide (k' = k) then Some v else tally_get k' m.
Proof.
  induction m as [|[k0 v0] m IH]; simpl.
  - repeat case_decide; congruence.
  - repeat (case_decide; simpl); congruence.
Qed.

Lemma tally_set_keys k v m :
  (tally_set k v m).*1 = if decide (k ∈ m.*1) then m.*1 else m.*1 ++ [k].
Proof.
  induction m as [|[k0 v0] m IH]; [done|].
  cbn [tally_set]. destruct (decide (k0 = k)) as [->|Hne].
  - rewrite decide_True by apply list_elem_of_here. done.
  - rewrite fmap_cons, IH. cbn [fst]. destruct (decide (k ∈ m.*1)) as [Hin|Hnin].
    + rewrite decide_True by (by apply list_elem_of_further). done.
    + rewrite decide_False; [done|].
      intros [Heq|?]%elem_of_cons; [simpl in Heq; congruence | done].
Qed.

Lemma tally_get_None k m : tally_get k m = None ↔ k ∉ m.*1.
Proof.
  induction m as [|[k0 v0] m IH]; simpl.
  - rewrite elem_of_nil. tauto.
  - rewrite not_elem_of_cons. case_decide; subst.
    + split; [done | intros [? _]; done].
    + rewrite IH. split; [intros ?; split; [congruence | done] | tauto].
Qed.

Lemma tally_get_elem_of k v m : NoDup m.*1 → (k, v) ∈ m → tally_get k m = Some v.
Proof.
  induction m as [|[k0 v0] m IH]; simpl; intros Hnd Hin.
  - by apply elem_of_nil in Hin.
  - apply NoDup_cons in Hnd as [Hk0 Hnd].
    apply elem_of_cons in Hin as [[= -> ->]|Hin].
    + by rewrite decide_True.
    + rewrite decide_False; [by apply IH|].
      intros ->. apply Hk0. apply list_elem_of_fmap. by exists (k, v).
Qed.

Lemma occurrences_app k l1 l2 :
  occurrences k (l1 ++ l2) = occurrences k l1 + occurrences k l2.
Proof. induction l1 as [|x l1 IH]; simpl; [done | rewrite IH; lia]. Qed.

Lemma occurrences_pos k l : k ∈ l → 0 < occurrences k l.
Proof.
  induction l as [|x l IH]; simpl; intros Hin.
  - by apply elem_of_nil in Hin.
  - case_decide; [lia|]. apply elem_of_cons in Hin as [->|Hin]; [done|].
    specialize (IH Hin). lia.
Qed.

Lemma first_index_lt k l : k ∈ l → first_index k l < length l.
Proof.
  induction l as [|x l IH]; simpl; intros Hin.
  - by apply elem_of_nil in Hin.
  - case_decide; [lia|]. apply elem_of_cons in Hin as [->|Hin]; [done|].
    specialize (IH Hin). lia.
Qed.

Lemma first_index_lookup k l : k ∈ l → l !! first_index k l = Some k.
Proof.
  induction l as [|x l IH]; simpl; intros Hin.
  - by apply elem_of_nil in Hin.
  - case_decide; [by subst|]. apply elem_of_cons in Hin as [->|Hin]; [done|].
    by apply IH.
Qed.

Lemma first_index_least k l i : l !! i = Some k → first_index k l ≤ i.
Proof.
  revert i. induction l as [|x l IH]; simpl; intros i Hi; [done|].
  case_decide; [lia|]. destruct i as [|i]; simpl in Hi; [congruence|].
  specialize (IH i Hi). lia.
Qed.

Lemma first_index_app_l k l1 l2 :
  k ∈ l1 → first_index k (l1 ++ l2) = first_index k l1.
Proof.
  induction l1 as [|x l1 IH]; simpl; intros Hin.
  - by apply elem_of_nil in Hin.
  - case_decide; [done|]. apply elem_of_cons in Hin as [->|Hin]; [done|].
    by rewrite IH.
Qed.

Lemma first_index_app_r k l1 l2 :
  k ∉ l1 → first_index k (l1 ++ l2) = length l1 + first_index k l2.
Proof.
  induction l1 as [|x l1 IH]; simpl; intros Hnin; [done|].
  apply not_elem_of_cons in Hnin as [Hne Hnin].
  rewrite decide_False by congruence. by rewrite IH.
Qed.

(** The tally of a list: one entry per distinct element, in the order in
    which the elements are first encountered, each with its number of
    occurrences. *)
Lemma tally_fold_spec l :
  let m := fold_left tally_incr l [] in
  NoDup m.*1
  ∧ (∀ k, k ∈ m.*1 ↔ k ∈ l)
  ∧ (∀ k, default 0 (tally_get k m) = occurrences k l)
  ∧ StronglySorted (λ a b, first_index a l < first_index b l) m.*1.
Proof.
  induction l as [|x l IH] using rev_ind; simpl.
  { split; [constructor|]. split; [done|]. split; [done | constructor]. }
  rewrite fold_left_app. simpl.
  set (m := fold_left tally_incr l []) in *. simpl in IH.
  destruct IH as (Hnd & Hkeys & Hocc & Hsorted).
  unfold tally_incr. rewrite tally_set_keys.
  assert (∀ k, default 0 (tally_get k (tally_set x (default 0 (tally_get x m) + 1) m))
               = occurrences k (l ++ [x])) as Hocc'.
  { intros k. rewrite tally_get_set, occurrences_app. simpl.
    destruct (decide (k = x)) as [->|Hne].
    - rewrite decide_True by done. simpl. rewrite Hocc. lia.
    - rewrite decide_False by congruence. rewrite Hocc. lia. }
  assert (StronglySorted (λ a b, first_index a (l ++ [x]) < first_index b (l ++ [x])) m.*1)
    as Hsorted'.
  { eapply StronglySorted_impl_elem_of; [exact Hsorted|].
    intros a b Ha%Hkeys Hb%Hkeys Hab. by rewrite !first_index_app_l. }
  destruct (decide (x ∈ m.*1)) as [Hin|Hnin].
  - split; [done|]. split; [|split; [done|done]].
    intros k. rewrite Hkeys, elem_of_app, list_elem_of_singleton.
    split; [tauto | intros [?| ->]; [done | by apply Hkeys]].
  - assert (x ∉ l) as Hxl by (by rewrite <- Hkeys).
    split; [|split; [|split; [done|]]].
    + apply NoDup_app. split; [done|]. split; [|apply NoDup_singleton].
      intros k Hk ->%list_elem_of_singleton. done.
    + intros k. rewrite !elem_of_app, Hkeys. done.
    + apply StronglySorted_app_2; [|done|repeat constructor].
      intros a b Ha%Hkeys ->%list_elem_of_singleton.
      rewrite first_index_app_l by done. rewrite first_index_app_r by done.
      pose proof (first_index_lt a l Ha). lia.
Qed.
End Tally.

(** ** Sorting a tally *)

Section SortDesc.
Context (l : list string).
Implicit Types (m : tally) (e : string * nat).

Lemma insert_desc_perm e m : insert_desc e m ≡ₚ e :: m.
Proof.
  induction m as [|e' m IH]; simpl; [done|].
  case_decide; [done|]. rewrite IH. apply Permutation_swap.
Qed.

Lemma sort_desc_perm m : sort_desc m ≡ₚ m.
Proof.
  induction m as [|e m IH]; simpl; [done|].
  by rewrite insert_desc_perm, IH.
Qed.

Lemma entry_before_count e1 e2 : entry_before l e1 e2 → e2.2 ≤ e1.2.
Proof. unfold entry_before. lia. Qed.

Lemma insert_desc_sorted e m :
  StronglySorted (entry_before l) m →
  Forall (λ e', first_index e.1 l < first_index e'.1 l) m →
  StronglySorted (entry_before l) (insert_desc e m).
Proof.
  induction 1 as [|e' m Hs IH Hall]; intros Hfirst; simpl.
  - repeat constructor.
  - apply Forall_cons in Hfirst as [Hfirst' Hfirst].
    case_decide as Hcount.
    + constructor; [by constructor|].
      assert (∀ y, y ∈ e' :: m → y.2 ≤ e.2 ∧ first_index e.1 l < first_index y.1 l) as Hy.
      { intros y [->|Hy]%elem_of_cons; [done|]. split.
        - eapply Forall_forall in Hall; [|done]. apply entry_before_count in Hall. lia.
        - by eapply Forall_forall in Hfirst. }
      apply Forall_forall. intros y [Hle Hlt]%Hy. unfold entry_before. lia.
    + constructor; [by apply IH|].
      apply Forall_forall. intros y Hy. rewrite insert_desc_perm in Hy.
      apply elem_of_cons in Hy as [->|Hy].
      * unfold entry_before. lia.
      * by eapply Forall_forall in Hall.
Qed.

Lemma sort_desc_sorted m :
  StronglySorted (λ e1 e2, first_index e1.1 l < first_index e2.1 l) m →
  StronglySorted (entry_before l) (sort_desc m).
Proof.
  induction 1 as [|e m Hs IH Hall]; simpl; [constructor|].
  apply insert_desc_sorted; [done|]. by rewrite sort_desc_perm.
Qed.
End SortDesc.

(** ** The leading entries of a sorted tally *)

Section Top.
Context (l : list string) (n : nat).

Lemma StronglySorted_fmap_inv {A B} (f : A → B) (R : relation B) (xs : list A) :
  StronglySorted R (f <$> xs) → StronglySorted (λ a b, R (f a) (f b)) xs.
Proof.
  induction xs as [|a xs IH]; intros H; [constructor|].
  rewrite fmap_cons in H. apply StronglySorted_cons in H as [Hall Hs].
  constructor; [by apply IH|]. by rewrite Forall_fmap in Hall.
Qed.

(** The first [n] keys of the sorted tally of [l]: as many as there are
    distinct elements (at most [n]), without repetition, ranked by
    descending number of occurrences and then by first encounter, and
    ranking before every element of [l] left out. *)
Lemma top_spec :
  let top := (take n (sort_desc (fold_left tally_incr l []))).*1 in
  length top = n `min` length (remove_dups l)
  ∧ StronglySorted (ranks_before l) top
  ∧ NoDup top
  ∧ (∀ k, k ∈ top → k ∈ l)
  ∧ (∀ k k', k ∈ top → k' ∈ l → k' ∉ top → ranks_before l k k').
Proof.
  destruct (tally_fold_spec l) as (Hnd & Hkeys & Hocc & Hsorted).
  set (m := fold_left tally_incr l []) in *. simpl in Hnd, Hkeys, Hocc, Hsorted.
  set (s := sort_desc m).
  assert (s ≡ₚ m) as Hperm by apply sort_desc_perm.
  assert (∀ e, e ∈ s → e.1 ∈ l ∧ e.2 = occurrences e.1 l) as Hentry.
  { intros [k v] He. rewrite Hperm in He. simpl. split.
    - apply Hkeys. apply list_elem_of_fmap. by exists (k, v).
    - rewrite <- Hocc. by rewrite (tally_get_elem_of k v m). }
  assert (StronglySorted (λ e1 e2, ranks_before l e1.1 e2.1) s) as Hs.
  { eapply StronglySorted_impl_elem_of.
    - apply sort_desc_sorted. by apply StronglySorted_fmap_inv in Hsorted.
    - intros e1 e2 [_ H1]%Hentry [_ H2]%Hentry.
      unfold entry_before, ranks_before. rewrite H1, H2. done. }
  assert (NoDup s.*1) as Hnds by (by rewrite Hperm).
  rewrite <- (take_drop n s) in Hs, Hnds.
  apply StronglySorted_app in Hs as (Hcross & Hs & _).
  rewrite fmap_app in Hnds. apply NoDup_app in Hnds as (Hnds & _ & _).
  simpl. split; [|split; [|split; [done|split]]].
  - rewrite length_fmap, length_take. f_equal.
    rewrite Hperm, <- (length_fmap fst m). apply Permutation_length.
    apply NoDup_Permutation; [done | apply NoDup_remove_dups |].
    intros k. by rewrite Hkeys, elem_of_remove_dups.
  - eapply StronglySorted_fmap; [|exact Hs]. done.
  - intros k (e & -> & He)%list_elem_of_fmap.
    apply Hentry. rewrite <- (take_drop n s). apply elem_of_app. by left.
  - intros k k' (e & -> & He)%list_elem_of_fmap Hk' Hout.
    apply Hkeys in Hk' as (e' & -> & He')%list_elem_of_fmap.
    rewrite <- Hperm, <- (take_drop n s) in He'.
    apply elem_of_app in He' as [He'|He'].
    + destruct Hout. apply list_elem_of_fmap. by exists e'.
    + by apply Hcross.
Qed.
End Top.

(** ** Overall analysis *)

Section Analysis.
Implicit Types (cards : list TarotCard.t) (placedCards : list PlacedCard.t).

Lemma suitCounts_of_fold cards :
  suitCounts_of cards = fold_left tally_incr (suits_of cards) [].
Proof.
  unfold suitCounts_of, suits_of. generalize ([] : tally).
  induction cards as [|card cards IH]; intros m; simpl; [done|].
  rewrite IH. by destruct (truthy_opt (TarotCard.suit card)).
Qed.

Lemma suits_of_truthy cards s : s ∈ suits_of cards → truthy s = true.
Proof.
  unfold suits_of. intros (card & _ & H)%list_elem_of_omap.
  unfold truthy_opt in H. destruct (TarotCard.suit card) as [s'|]; [|done].
  destruct (truthy s') eqn:Hs'; [|done]. by injection H as <-.
Qed.

Lemma remove_dups_nil_inv (l : list string) : length (remove_dups l) = 0 → l = [].
Proof.
  destruct l as [|x l]; [done|]. intros Hlen.
  pose proof (elem_of_remove_dups (x :: l) x) as [_ Hx].
  destruct (remove_dups (x :: l)); [|done].
  specialize (Hx (list_elem_of_here _ _)). by apply elem_of_nil in Hx.
Qed.

(** The first key of the sorted tally of [l]: none exactly when [l] is
    empty, and otherwise an element of [l] that ranks before every other
    one. *)
Lemma top_head_spec (l : list string) :
  let h := head (take 1 (sort_desc (fold_left tally_incr l []))).*1 in
  (h = None ↔ l = [])
  ∧ (∀ s, h = Some s → s ∈ l ∧ ∀ s', s' ∈ l → s' ≠ s → ranks_before l s s').
Proof.
  destruct (top_spec l 1) as (Hlen & _ & _ & Hin & Hout).
  destruct ((take 1 (sort_desc (fold_left tally_incr l []))).*1) as [|s0 top];
    cbn [length head] in *.
  - split; [|done]. split; [intros _ | done].
    apply remove_dups_nil_inv. lia.
  - assert (top = []) as -> by (destruct top; [done | cbn [length] in Hlen; lia]).
    split.
    + split; [done|]. intros ->.
      specialize (Hin s0 (list_elem_of_here _ _)). by apply elem_of_nil in Hin.
    + intros s [= <-]. split; [apply Hin, list_elem_of_here|].
      intros s' Hs' Hne. apply Hout; [apply list_elem_of_here | done |].
      by intros ->%list_elem_of_singleton.
Qed.

Lemma head_fst_take {A B} (xs : list (A * B)) : fst <$> head xs = head (take 1 xs).*1.
Proof. by destruct xs. Qed.

(** The dominant suit is the first key of the sorted suit tally. *)
Lemma dominantSuit_top placedCards cardMap combinationRules :
  Analysis.dominantSuit (generateOverallAnalysis placedCards cardMap combinationRules)
  = head (take 1 (sort_desc (fold_left tally_incr
                               (suits_of (resolvedCards placedCards cardMap)) []))).*1.
Proof. simpl. by rewrite suitCounts_of_fold, head_fst_take. Qed.

Lemma dominantSuit_elem_of placedCards cardMap combinationRules s :
  Analysis.dominantSuit (generateOverallAnalysis placedCards cardMap combinationRules)
  = Some s →
  s ∈ suits_of (resolvedCards placedCards cardMap).
Proof.
  rewrite dominantSuit_top. intros Hs.
  destruct (top_spec (suits_of (resolvedCards placedCards cardMap)) 1)
    as (_ & _ & _ & Hin & _).
  apply Hin. by apply head_Some_elem_of.
Qed.

Lemma dominantSuit_truthy placedCards cardMap combinationRules :
  truthy_opt
    (Analysis.dominantSuit (generateOverallAnalysis placedCards cardMap combinationRules))
  = Analysis.dominantSuit (generateOverallAnalysis placedCards cardMap combinationRules).
Proof.
  destruct (Analysis.dominantSuit _) as [s|] eqn:Hs; [|done].
  apply dominantSuit_elem_of, suits_of_truthy in Hs. simpl. by rewrite Hs.
Qed.

Lemma interpretReading_analysis spread placedCards allCards combinationRules options r :
  interpretReading spread placedCards allCards combinationRules options = inr r →
  let a := generateOverallAnalysis placedCards (cardMap_of allCards) combinationRules in
  InterpretationResult.overallSummary r = Analysis.summary a
  ∧ InterpretationResult.keywords r = Analysis.keywords a
  ∧ InterpretationResult.dominantSuit r = Analysis.dominantSuit a
  ∧ InterpretationResult.majorArcanaCount r = Analysis.majorArcanaCount a
  ∧ InterpretationResult.reversedCount r = Analysis.reversedCount a.
Proof.
  unfold interpretReading.
  destruct (map_throwing _ placedCards) as [e|positions]; [done|].
  simpl. by intros [= <-].
Qed.

(** The suits the engine tallies are the suits met in placement order. *)
Lemma suits_of_resolvedCards placedCards allCards :
  suits_of (resolvedCards placedCards (cardMap_of allCards))
  = suits_in_placement_order allCards placedCards.
Proof.
  unfold suits_of, resolvedCards.
  induction placedCards as [|pc rest IH]; [done|].
  cbn [omap list_omap suits_in_placement_order].
  rewrite cardMap_of_catalog_card.
  destruct (catalog_card allCards (PlacedCard.cardId pc)) as [card|]; [|exact IH].
  cbn [omap list_omap mbind option_bind]. unfold truthy_opt at 1.
  destruct (TarotCard.suit card) as [[|c suit]|]; cbn [mbind option_bind truthy];
    [exact IH | by rewrite IH | exact IH].
Qed.

(** The keywords the engine tallies are the keywords met in placement
    order. *)
Lemma allKeywords_of_resolvedCards placedCards allCards :
  allKeywords_of (resolvedCards placedCards (cardMap_of allCards))
  = keywords_in_placement_order allCards placedCards.
Proof.
  unfold allKeywords_of, resolvedCards.
  induction placedCards as [|pc rest IH]; [done|].
  cbn [omap list_omap keywords_in_placement_order].
  rewrite cardMap_of_catalog_card.
  destruct (catalog_card allCards (PlacedCard.cardId pc)) as [card|]; [|exact IH].
  cbn [map concat]. by rewrite IH.
Qed.
End Analysis.

(** C6. The dominant suit and the keywords. Go through the placed cards
    from the first to the last and look each card id up in the catalog: this
    gives the suits of the resolved cards that have one (a non-empty suit) and
    the keywords of the resolved cards, both in placement order. There is no
    dominant suit exactly when no resolved card has a suit; otherwise the
    dominant suit is one of those suits and ranks before every other: it occurs
    more often, or as often and is encountered first. The keywords are 5 of
    the distinct keywords (all of them if there are fewer), without
    repetition, listed by descending number of occurrences and, among equals,
    by first encounter, and each of them ranks before every keyword left
    out. The result of the engine carries this dominant suit and these
    keywords. *)
Theorem dominantSuit_and_keywords (spread : TarotSpread.t)
    (placedCards : list PlacedCard.t) (allCards : list TarotCard.t)
    (combinationRules : list CombinationRule.t) (options : option InterpretationOptions.t) :
  let suits := suits_in_placement_order allCards placedCards in
  let kws := keywords_in_placement_order allCards placedCards in
  let a := generateOverallAnalysis placedCards (cardMap_of allCards) combinationRules in
  (Analysis.dominantSuit a = None ↔ suits = [])
  ∧ (∀ s, Analysis.dominantSuit a = Some s →
          s ∈ suits ∧ ∀ s', s' ∈ suits → s' ≠ s → ranks_before suits s s')
  ∧ length (Analysis.keywords a) = 5 `min` length (remove_dups kws)
  ∧ NoDup (Analysis.keywords a)
  ∧ StronglySorted (ranks_before kws) (Analysis.keywords a)
  ∧ (∀ k, k ∈ Analysis.keywords a → k ∈ kws)
  ∧ (∀ k k', k ∈ Analysis.keywords a → k' ∈ kws → k' ∉ Analysis.keywords a →
             ranks_before kws k k')
  ∧ (∀ r, interpretReading spread placedCards allCards combinationRules options = inr r →
          InterpretationResult.dominantSuit r = Analysis.dominantSuit a
          ∧ InterpretationResult.keywords r = Analysis.keywords a).
Proof.
  intros suits kws a.
  pose proof (top_head_spec (suits_of (resolvedCards placedCards (cardMap_of allCards))))
    as [Hnone Hsome].
  rewrite <- (dominantSuit_top placedCards (cardMap_of allCards) combinationRules)
    in Hnone, Hsome.
  pose proof (top_spec (allKeywords_of (resolvedCards placedCards (cardMap_of allCards))) 5)
    as (Hlen & Hsorted & Hnd & Hin & Hout).
  change ((take 5 (sort_desc (fold_left tally_incr
             (allKeywords_of (resolvedCards placedCards (cardMap_of allCards))) []))).*1)
    with (Analysis.keywords a) in Hlen, Hsorted, Hnd, Hin, Hout.
  fold a in Hnone, Hsome.
  assert (∀ r, interpretReading spread placedCards allCards combinationRules options = inr r →
               InterpretationResult.dominantSuit r = Analysis.dominantSuit a
               ∧ InterpretationResult.keywords r = Analysis.keywords a) as Hresult.
  { intros r Hr. by apply interpretReading_analysis in Hr as (_ & ? & ? & _). }
  revert Hnone Hsome Hlen Hsorted Hnd Hin Hout Hresult.
  generalize (Analysis.keywords a). generalize (Analysis.dominantSuit a).
  rewrite suits_of_resolvedCards, allKeywords_of_resolvedCards.
  fold suits kws. intros dominant top. tauto.
Qed.

(** ** The overall summary *)

Section Summary.
Lemma string_app_assoc (s1 s2 s3 : string) : (s1 +:+ s2) +:+ s3 = s1 +:+ (s2 +:+ s3).
Proof.
  induction s1 as [|c s1 IH]; [done|].
  change (String c ((s1 +:+ s2) +:+ s3) = String c (s1 +:+ (s2 +:+ s3))).
  by f_equal.
Qed.

(** Comparing with half the total loses nothing: [r >= t / 2] over the
    rationals is [t <= 2 * r]. *)
Lemma half_le_iff (totalCards reversedCount : nat) :
  Qle_bool (inject_Z (Z.of_nat totalCards) / 2) (inject_Z (Z.of_nat reversedCount))
  = bool_decide (totalCards ≤ 2 * reversedCount).
Proof.
  apply eq_true_iff_eq. rewrite Qle_bool_iff.
  unfold Qle, Qdiv, Qmult, Qinv, inject_Z. simpl.
  split; intros H.
  - apply bool_decide_eq_true. lia.
  - apply bool_decide_eq_true in H. lia.
Qed.

Lemma reversed_clause_guard (totalCards reversedCount : nat) :
  truthy_nat reversedCount && truthy_nat totalCards
  && Qle_bool (inject_Z (Z.of_nat totalCards) / 2) (inject_Z (Z.of_nat reversedCount))
  = bool_decide (1 ≤ reversedCount ∧ 1 ≤ totalCards ∧ totalCards ≤ 2 * reversedCount).
Proof.
  rewrite half_le_iff. unfold truthy_nat.
  destruct reversedCount as [|r], totalCards as [|t]; simpl; try done.
  apply eq_true_iff_eq. rewrite !bool_decide_eq_true. lia.
Qed.

Lemma generateSummary_clauses (majorCount : nat) (dominantSuit : option string)
    (reversedCount totalCards : nat) :
  generateSummary majorCount dominantSuit reversedCount totalCards
  = summary_of_clauses majorCount (truthy_opt dominantSuit)
      (bool_decide (1 ≤ reversedCount ∧ 1 ≤ totalCards ∧ totalCards ≤ 2 * reversedCount)).
Proof.
  unfold generateSummary, summary_of_clauses. rewrite reversed_clause_guard.
  repeat case_decide; destruct (truthy_opt dominantSuit) as [suit|];
    destruct (bool_decide _); rewrite ?string_app_assoc; reflexivity.
Qed.

Lemma analysis_reversedCount_le placedCards cardMap combinationRules :
  Analysis.reversedCount (generateOverallAnalysis placedCards cardMap combinationRules)
  ≤ length placedCards.
Proof. simpl. apply length_filter. Qed.

Lemma analysis_summary placedCards cardMap combinationRules :
  let a := generateOverallAnalysis placedCards cardMap combinationRules in
  Analysis.summary a
  = summary_of_clauses (Analysis.majorArcanaCount a) (Analysis.dominantSuit a)
      (bool_decide (1 ≤ Analysis.reversedCount a
                    ∧ length placedCards ≤ 2 * Analysis.reversedCount a)).
Proof.
  intros a.
  pose proof (analysis_reversedCount_le placedCards cardMap combinationRules) as Hle.
  pose proof (dominantSuit_truthy placedCards cardMap combinationRules) as Hdom.
  fold a in Hle, Hdom. rewrite <- Hdom at 1.
  change (Analysis.summary a)
    with (generateSummary (Analysis.majorArcanaCount a) (Analysis.dominantSuit a)
            (Analysis.reversedCount a) (length placedCards)).
  rewrite generateSummary_clauses. rewrite Hdom. f_equal.
  apply eq_true_iff_eq. rewrite !bool_decide_eq_true. lia.
Qed.
End Summary.

(** C5, as stated, fails on the empty reading: no card is reversed, so the
    number of reversed cards is at least half the number of placed cards
    (both are 0), yet the summary is the closing sentence alone, without the
    reversed-cards clause. *)
Lemma overallSummary_as_stated_fails :
  ∃ r,
    interpretReading Sample.threeCards [] Sample.catalog [] None = inr r
    ∧ length ([] : list PlacedCard.t) ≤ 2 * InterpretationResult.reversedCount r
    ∧ InterpretationResult.overallSummary r
      ≠ summary_of_clauses (InterpretationResult.majorArcanaCount r)
          (InterpretationResult.dominantSuit r)
          (bool_decide (length ([] : list PlacedCard.t)
                        ≤ 2 * InterpretationResult.reversedCount r)).
Proof.
  eexists. split; [reflexivity|]. split; [simpl; lia|].
  vm_compute. discriminate.
Qed.

(** C5, amended. The overall summary is the concatenation, in this order,
    of: the clause on significant life changes when at least 3 resolved cards
    are Major Arcana, else the clause on life lessons when at least 1 is; the
    clause naming the theme of the dominant suit when there is one; the clause
    on reversed cards when at least one placed card is reversed and the
    reversed cards are at least half of the placed cards (compared exactly:
    twice their number reaches the number of placed cards); and the closing
    sentence. The summary of every result the engine returns is composed so
    from the counts and the dominant suit of that result. *)
Theorem overallSummary_clauses (spread : TarotSpread.t)
    (placedCards : list PlacedCard.t) (allCards : list TarotCard.t)
    (combinationRules : list CombinationRule.t) (options : option InterpretationOptions.t) :
  let a := generateOverallAnalysis placedCards (cardMap_of allCards) combinationRules in
  Analysis.summary a
  = summary_of_clauses (Analysis.majorArcanaCount a) (Analysis.dominantSuit a)
      (bool_decide (1 ≤ Analysis.reversedCount a
                    ∧ length placedCards ≤ 2 * Analysis.reversedCount a))
  ∧ ∀ r,
      interpretReading spread placedCards allCards combinationRules options = inr r →
      InterpretationResult.overallSummary r
      = summary_of_clauses (InterpretationResult.majorArcanaCount r)
          (InterpretationResult.dominantSuit r)
          (bool_decide (1 ≤ InterpretationResult.reversedCount r
                        ∧ length placedCards ≤ 2 * InterpretationResult.reversedCount r)).
Proof.
  intros a. split; [apply analysis_summary|].
  intros r Hr. apply interpretReading_analysis in Hr as (-> & _ & -> & -> & ->).
  apply analysis_summary.
Qed.

(** ** The properties on the sample reading *)

Lemma interpretReading_positions_sample :
  (∀ pc, pc ∈ Sample.placed → PlacedCard.cardId pc ∈ map TarotCard.id Sample.catalog)
  ∧ (∀ pc, pc ∈ Sample.placed →
       PlacedCard.position pc
       ∈ map SpreadPosition.index (TarotSpread.positions Sample.threeCards))
  ∧ ∃ r,
      interpretReading Sample.threeCards Sample.placed Sample.catalog [] None = inr r
      ∧ length (InterpretationResult.positions r) = length Sample.placed
      ∧ Forall2 (λ pc e,
                   PositionReading.cardId e = PlacedCard.cardId pc
                   ∧ PositionReading.orientation e = PlacedCard.orientation pc
                   ∧ ∃ p, slot_of Sample.threeCards (PlacedCard.position pc) p
                          ∧ PositionReading.slotName e = SpreadPosition.name p)
                Sample.placed (InterpretationResult.positions r).
Proof.
  assert (∀ pc, pc ∈ Sample.placed →
            PlacedCard.cardId pc ∈ map TarotCard.id Sample.catalog) as Hcards.
  { apply Forall_forall. repeat constructor; apply list_elem_of_In; simpl; tauto. }
  assert (∀ pc, pc ∈ Sample.placed →
            PlacedCard.position pc
            ∈ map SpreadPosition.index (TarotSpread.positions Sample.threeCards)) as Hpos.
  { apply Forall_forall. repeat constructor; apply list_elem_of_In; simpl; tauto. }
  split; [exact Hcards|]. split; [exact Hpos|].
  exact (interpretReading_positions Sample.threeCards Sample.placed Sample.catalog []
           None Hcards Hpos).
Defined.

Lemma getAdjacentCards_symmetric_sample :
  let a := Sample.place "major-0" upright 0 in
  let b := Sample.place "cups-1" reversed 1 in
  a ∈ Sample.placed ∧ b ∈ Sample.placed
  ∧ (a ∈ getAdjacentCards Sample.placed b Sample.threeCards
     ↔ b ∈ getAdjacentCards Sample.placed a Sample.threeCards).
Proof.
  intros a b.
  assert (a ∈ Sample.placed) as Ha by (apply list_elem_of_In; simpl; tauto).
  assert (b ∈ Sample.placed) as Hb by (apply list_elem_of_In; simpl; tauto).
  split; [exact Ha|]. split; [exact Hb|].
  exact (proj1 (proj2 (proj2
           (getAdjacentCards_symmetric Sample.threeCards Sample.placed a b Ha Hb)))).
Defined.

Lemma same_cardId_not_adjacent_sample :
  let cur := Sample.place "major-0" upright 0 in
  let c := Sample.place "major-0" reversed 1 in
  PlacedCard.cardId c = PlacedCard.cardId cur
  ∧ getAdjacencyInfluence ([cur] ++ c :: [Sample.place "cups-1" reversed 1]) cur
      (cardMap_of Sample.catalog) Sample.threeCards
    = getAdjacencyInfluence ([cur] ++ [Sample.place "cups-1" reversed 1]) cur
        (cardMap_of Sample.catalog) Sample.threeCards.
Proof.
  intros cur c. split; [reflexivity|].
  exact (proj2 (proj2 (proj2 (proj2 (proj2
           (same_cardId_not_adjacent Sample.threeCards (cardMap_of Sample.catalog)
              [cur] [Sample.place "cups-1" reversed 1] cur c eq_refl)))))).
Defined.


(** ** Worked readings *)

(** The single-card scenarios of the design document. *)
Example fool_upright :
  let focus := {| TarotSpread.id := "single"; TarotSpread.name := "Single";
                  TarotSpread.description := None;
                  TarotSpread.positions := [Sample.position 0 "Focus" "central theme"];
                  TarotSpread.layoutHints := None |} in
  ∃ r e,
    interpretReading focus [Sample.place "major-0" upright 0] [Sample.fool] [] None = inr r
    ∧ InterpretationResult.positions r = [e]
    ∧ PositionReading.interpretationShort e = "Focus: The Fool (upright) — New beginnings."
    ∧ InterpretationResult.majorArcanaCount r = 1
    ∧ InterpretationResult.reversedCount r = 0.
Proof. do 2 eexists. repeat split. Qed.

Example fool_reversed_soft :
  let focus := {| TarotSpread.id := "single"; TarotSpread.name := "Single";
                  TarotSpread.description := None;
                  TarotSpread.positions := [Sample.position 0 "Focus" "central theme"];
                  TarotSpread.layoutHints := None |} in
  ∃ r e,
    interpretReading focus [Sample.place "major-0" reversed 0] [Sample.fool] []
      (Some {| InterpretationOptions.reversalMode := Some soft |}) = inr r
    ∧ InterpretationResult.positions r = [e]
    ∧ PositionReading.interpretationShort e
      = "Focus: The Fool (reversed) — Recklessness. (blocked or internal)".
Proof. do 2 eexists. repeat split. Qed.

(** The first placed card that does not resolve decides the error; the card
    is looked up before the position. *)
Example unknown_card_fails :
  interpretReading Sample.threeCards
    [Sample.place "major-0" upright 0; Sample.place "swords-9" upright 7;
     Sample.place "cups-1" upright 5]
    Sample.catalog [] None
  = inl (CardNotFound "swords-9").
Proof. reflexivity. Qed.

Example unknown_position_fails :
  interpretReading Sample.threeCards
    [Sample.place "major-0" upright 0; Sample.place "cups-1" upright 5]
    Sample.catalog [] None
  = inl (PositionNotFound 5).
Proof. reflexivity. Qed.

(** Wands and cups both occur twice; wands is met first and wins although
    cups comes first in the alphabet. The keyword "love" occurs four times and
    "balance" three times; "planning" and "intuition" occur twice each and
    "planning" is met first; "beginnings" occurs once. *)
Example tie_goes_to_first_encountered :
  let a := generateOverallAnalysis
             [Sample.place "wands-2" upright 0; Sample.place "cups-1" upright 1;
              Sample.place "cups-1" upright 2; Sample.place "wands-2" upright 3;
              Sample.place "major-0" upright 4]
             (cardMap_of Sample.catalog) [] in
  Analysis.dominantSuit a = Some "wands"
  ∧ Analysis.keywords a = ["love"; "balance"; "planning"; "intuition"; "beginnings"].
Proof. vm_compute. done. Qed.

(** The lists the ranking is taken over, on the same placed cards followed by
    a card id that is not in the catalog: the suits and the keywords in
    placement order; The Fool has no suit and the unknown card contributes
    nothing. *)
Example placement_order_lists :
  let placedCards :=
    [Sample.place "wands-2" upright 0; Sample.place "cups-1" upright 1;
     Sample.place "cups-1" upright 2; Sample.place "wands-2" upright 3;
     Sample.place "major-0" upright 4; Sample.place "swords-9" upright 5] in
  suits_in_placement_order Sample.catalog placedCards = ["wands"; "cups"; "cups"; "wands"]
  ∧ keywords_in_placement_order Sample.catalog placedCards
    = ["planning"; "love"; "love"; "balance"; "intuition"; "love"; "balance"; "intuition";
       "planning"; "love"; "beginnings"; "balance"].
Proof. vm_compute. done. Qed.

(** One reversed card out of three is less than half (no rounding down of
    1.5); one out of two is half. *)
Example one_of_three_reversed :
  generateSummary 0 None 1 3
  = "Trust your intuition as you interpret these messages for your path forward.".
Proof. reflexivity. Qed.

Example one_of_two_reversed :
  generateSummary 0 None 1 2
  = "Many reversed cards suggest internal work and reflection are needed. "
    +:+ "Trust your intuition as you interpret these messages for your path forward.".
Proof. reflexivity. Qed.

(** Two cards dealt on a spread numbered 10, 20, 30: the positions are the
    spread's indices, and the second draw exceeds 0.7. *)
Example deal_two_cards :
  let spread := {| TarotSpread.id := "gaps"; TarotSpread.name := "Gaps";
                   TarotSpread.description := None;
                   TarotSpread.positions :=
                     [Sample.position 10 "A" ""; Sample.position 20 "B" "";
                      Sample.position 30 "C" ""];
                   TarotSpread.layoutHints := None |} in
  dealCards (λ n, if decide (n = 1) then (9 # 10)%Q else (1 # 2)%Q)
    [Sample.fool; Sample.aceOfCups] spread
  = Some [Sample.place "major-0" upright 10; Sample.place "cups-1" reversed 20].
Proof. vm_compute. done. Qed.

(** A second entry for The Fool next to the first one is not adjacent to it,
    the Ace of Cups is. *)
Example duplicate_is_not_adjacent :
  getAdjacentCards
    [Sample.place "major-0" upright 0; Sample.place "major-0" reversed 1;
     Sample.place "cups-1" reversed 1]
    (Sample.place "major-0" upright 0) Sample.threeCards
  = [Sample.place "cups-1" reversed 1].
Proof. vm_compute. done. Qed.


(** * Further properties of the engine and of its callers *)

(** ** Shuffling *)

Section Shuffle.
Context {A : Type}.
Implicit Types (a : list A) (random : nat → Q).

Lemma randomIndex_range (r : Q) (n : nat) :
  (0 <= r)%Q → (r < 1)%Q → 0 < n → (0 ≤ randomIndex r n < Z.of_nat n)%Z.
Proof.
  intros H0 H1 Hn. unfold randomIndex.
  set (q := inject_Z (Z.of_nat n)).
  assert (0 < q)%Q as Hq.
  { change (inject_Z 0 < inject_Z (Z.of_nat n))%Q. rewrite <- Zlt_Qlt. lia. }
  split.
  - rewrite <- (Qfloor_Z 0). apply Qfloor_resp_le.
    apply Qmult_le_0_compat; [done | by apply Qlt_le_weak].
  - rewrite Zlt_Qlt. eapply Qle_lt_trans; [apply Qfloor_le|].
    fold q. rewrite <- (Qmult_1_l q) at 2. by apply Qmult_lt_compat_r.
Qed.

Lemma swap_Some a i j :
  i < length a → (0 ≤ j < Z.of_nat (length a))%Z →
  ∃ a', swap a i j = Some a' ∧ a' ≡ₚ a ∧ length a' = length a.
Proof.
  intros Hi Hj. unfold swap. rewrite decide_True by lia.
  destruct (lookup_lt_is_Some_2 a i Hi) as [ai Hai].
  destruct (lookup_lt_is_Some_2 a (Z.to_nat j)) as [aj Haj]; [lia|].
  rewrite Hai, Haj. simpl. eexists. split; [done|]. split.
  - by apply Permutation_insert_swap.
  - by rewrite !length_insert.
Qed.

Lemma shuffle_loop_perm random call i a :
  unit_draws random → i < length a →
  ∃ a', shuffle_loop random call i a = Some (a', call + i) ∧ a' ≡ₚ a.
Proof.
  intros Hdraws. revert call a. induction i as [|i IH]; intros call a Hi.
  - exists a. simpl. by rewrite Nat.add_0_r.
  - destruct (Hdraws call) as [H0 H1].
    pose proof (randomIndex_range (random call) (S i + 1) H0 H1 ltac:(lia)) as Hj.
    destruct (swap_Some a (S i) (randomIndex (random call) (S i + 1)))
      as (a' & Hswap & Hperm & Hlen); [done | lia |].
    destruct (IH (S call) a') as (a'' & Hrun & Hperm'); [lia|].
    exists a''. split; [|by rewrite Hperm'].
    cbn [shuffle_loop]. rewrite Hswap. cbn [mbind option_bind]. rewrite Hrun.
    f_equal. f_equal. lia.
Qed.
End Shuffle.

Lemma shuffleDeck_calls_perm random cards :
  unit_draws random →
  ∃ shuffled,
    shuffleDeck_calls random cards = Some (shuffled, length cards - 1)
    ∧ shuffled ≡ₚ cards.
Proof.
  intros Hdraws. unfold shuffleDeck_calls.
  destruct cards as [|c cards]; [by exists []|].
  destruct (shuffle_loop_perm random 0 (length (c :: cards) - 1) (c :: cards))
    as (shuffled & Hrun & Hperm); [done | simpl; lia |].
  exists shuffled. by rewrite Hrun.
Qed.

(** X1. With draws in [0, 1) the shuffle returns a rearrangement of the
    deck: the same cards, each as many times as before, hence as many cards;
    no index outside the deck is ever touched. *)
Theorem shuffleDeck_permutation (random : nat → Q) (cards : list TarotCard.t) :
  unit_draws random →
  ∃ shuffled,
    shuffleDeck random cards = Some shuffled
    ∧ shuffled ≡ₚ cards
    ∧ length shuffled = length cards.
Proof.
  intros Hdraws.
  destruct (shuffleDeck_calls_perm random cards Hdraws) as (shuffled & Hrun & Hperm).
  exists shuffled. unfold shuffleDeck. rewrite Hrun. split; [done|]. split; [done|].
  by rewrite Hperm.
Qed.

Section ShuffleReaches.
Context {A : Type}.
Implicit Types (a t : list A).

Lemma draw_for_unit (j n : nat) : j < n → (0 <= draw_for j n)%Q ∧ (draw_for j n < 1)%Q.
Proof.
  intros Hj. unfold draw_for.
  assert (0 < inject_Z (Z.of_nat n))%Q as Hn.
  { change (inject_Z 0 < inject_Z (Z.of_nat n))%Q. rewrite <- Zlt_Qlt. lia. }
  split.
  - apply Qle_shift_div_l; [done|]. rewrite Qmult_0_l.
    change (inject_Z 0 <= inject_Z (Z.of_nat j))%Q. rewrite <- Zle_Qle. lia.
  - apply Qlt_shift_div_r; [done|]. rewrite Qmult_1_l. rewrite <- Zlt_Qlt. lia.
Qed.

Lemma randomIndex_draw_for (j n : nat) : j < n → randomIndex (draw_for j n) n = Z.of_nat j.
Proof.
  intros Hj. unfold randomIndex, draw_for.
  assert (inject_Z (Z.of_nat j) / inject_Z (Z.of_nat n) * inject_Z (Z.of_nat n)
          == inject_Z (Z.of_nat j))%Q as ->.
  { rewrite Qmult_comm. apply Qmult_div_r. intros H.
    unfold Qeq, inject_Z in H. simpl in H. lia. }
  apply Qfloor_Z.
Qed.

Lemma shuffle_loop_reaches call i a t :
  length a = length t → i < length a →
  take (S i) a ≡ₚ take (S i) t → drop (S i) a = drop (S i) t →
  ∃ rs : list Q,
    Forall (λ r, (0 <= r)%Q ∧ (r < 1)%Q) rs
    ∧ ∀ random,
        (∀ k r, rs !! k = Some r → random (call + k) = r) →
        shuffle_loop random call i a = Some (t, call + i).
Proof.
  revert call a. induction i as [|i IH]; intros call a Hlen Hi Htake Hdrop.
  - exists []. split; [constructor|]. intros random _. simpl.
    destruct a as [|x a], t as [|y t]; simpl in *; try lia.
    apply Permutation_singleton_inj in Htake. rewrite !drop_0 in Hdrop.
    rewrite Nat.add_0_r. by subst.
  - destruct (lookup_lt_is_Some_2 t (S i)) as [ti Hti]; [lia|].
    destruct (lookup_lt_is_Some_2 a (S i)) as [ai Hai]; [lia|].
    assert (ti ∈ take (S (S i)) a) as Hin.
    { rewrite Htake. apply elem_of_take. exists (S i). split; [done | lia]. }
    apply elem_of_take in Hin as (j & Hj & Hjlt).
    set (a' := <[j := ai]> (<[S i := ti]> a)).
    assert (a' ≡ₚ a) as Hperm by (by apply Permutation_insert_swap).
    assert (length a' = length a) as Hlen' by (unfold a'; by rewrite !length_insert).
    assert (a' !! S i = Some ti) as Hti'.
    { unfold a'. destruct (decide (j = S i)) as [->|Hne].
      - rewrite list_lookup_insert_eq by (rewrite length_insert; lia). congruence.
      - rewrite list_lookup_insert_ne by done.
        apply list_lookup_insert_eq. lia. }
    assert (drop (S i) a' = drop (S i) t) as Hdrop'.
    { rewrite (drop_S a' ti (S i)), (drop_S t ti (S i)) by done. f_equal.
      rewrite <- Hdrop. unfold a'. by rewrite !drop_insert_lt by lia. }
    assert (take (S i) a' ≡ₚ take (S i) t) as Htake'.
    { assert (a' ≡ₚ t) as Hat.
      { rewrite Hperm. rewrite <- (take_drop (S (S i)) a), <- (take_drop (S (S i)) t).
        by rewrite Htake, Hdrop. }
      rewrite <- (take_drop (S i) a'), <- (take_drop (S i) t), Hdrop' in Hat.
      by apply (inj (.++ drop (S i) t)) in Hat. }
    destruct (IH (S call) a') as (rs & Hrs & Hrun); [lia | lia | done | done |].
    exists (draw_for j (S i + 1) :: rs). split.
    + constructor; [apply draw_for_unit; lia | done].
    + intros random Hrandom. cbn [shuffle_loop].
      rewrite <- (Nat.add_0_r call) at 1. rewrite (Hrandom 0 _ eq_refl).
      rewrite randomIndex_draw_for by lia.
      unfold swap. rewrite decide_True by lia. rewrite Nat2Z.id, Hai, Hj.
      cbn [mbind option_bind]. fold a'. rewrite Hrun.
      * f_equal. f_equal. lia.
      * intros k r Hk. rewrite <- (Hrandom (S k) r Hk). f_equal. lia.
Qed.
End ShuffleReaches.

(** X2. The shuffle can produce every ordering of the deck: whatever
    rearrangement of the cards is wanted, some sequence of draws in [0, 1)
    makes the shuffle return it. *)
Theorem shuffleDeck_reaches_every_order (cards target : list TarotCard.t) :
  target ≡ₚ cards →
  ∃ random, unit_draws random ∧ shuffleDeck random cards = Some target.
Proof.
  intros Hperm. unfold shuffleDeck, shuffleDeck_calls.
  destruct cards as [|c cards].
  { apply Permutation_nil_r in Hperm as ->.
    exists (λ _, 0%Q). split; [by intros n | done]. }
  assert (length target = S (length cards)) as Hlen by (by rewrite Hperm).
  destruct (shuffle_loop_reaches 0 (length (c :: cards) - 1) (c :: cards) target)
    as (rs & Hrs & Hrun).
  - by rewrite Hlen.
  - simpl. lia.
  - rewrite !take_ge; [done | simpl; lia | simpl; lia].
  - rewrite !drop_ge; [done | simpl; lia | simpl; lia].
  - exists (λ n, default 0%Q (rs !! n)). split.
    + intros n. destruct (rs !! n) as [r|] eqn:Hn; simpl; [|done].
      by eapply Forall_lookup_1 in Hrs.
    + rewrite Hrun; [done|]. intros k r Hk. simpl. by rewrite Hk.
Qed.

(** ** Dealing, then interpreting *)

Section DealMore.
Context (random : nat → Q) (shuffledCards : list TarotCard.t) (spread : TarotSpread.t).

(** The card ids and the positions of a deal are prefixes of the ids of the
    shuffled cards and of the indices of the spread. *)
Lemma dealCards_prefixes :
  ∃ dealt,
    dealCards random shuffledCards spread = Some dealt
    ∧ PlacedCard.cardId <$> dealt = take (length dealt) (TarotCard.id <$> shuffledCards)
    ∧ PlacedCard.position <$> dealt
      = take (length dealt) (SpreadPosition.index <$> TarotSpread.positions spread).
Proof.
  destruct (dealCards_entries random shuffledCards spread) as (dealt & Hdeal & _ & Hent).
  exists dealt. split; [done|].
  assert (∀ i, length dealt ≤ i → dealt !! i = None) as Hge
    by (intros; by apply lookup_ge_None_2).
  rewrite <- !fmap_take.
  split; apply list_eq; intros i; rewrite !list_lookup_fmap;
    (destruct (decide (i < length dealt)) as [Hi|Hi];
     [ destruct (Hent i Hi) as (pc & card & p & -> & Hcard & Hp & Hid & Hpos);
       rewrite lookup_take_lt by done; rewrite ?Hcard, ?Hp; simpl; congruence
     | rewrite Hge by lia; rewrite lookup_take_ge by lia; done ]).
Qed.

Lemma dealCards_well_placed :
  NoDup (TarotCard.id <$> shuffledCards) →
  NoDup (SpreadPosition.index <$> TarotSpread.positions spread) →
  ∃ dealt, dealCards random shuffledCards spread = Some dealt ∧ well_placed dealt.
Proof.
  intros Hids Hidx. destruct dealCards_prefixes as (dealt & Hdeal & Hc & Hp).
  exists dealt. split; [done|]. unfold well_placed. rewrite Hc, Hp.
  split; eapply sublist_NoDup; eauto using sublist_take.
Qed.

Lemma dealCards_resolves (allCards : list TarotCard.t) :
  (∀ card, card ∈ shuffledCards → TarotCard.id card ∈ map TarotCard.id allCards) →
  ∃ dealt,
    dealCards random shuffledCards spread = Some dealt
    ∧ ∀ pc, pc ∈ dealt → resolves spread allCards pc.
Proof.
  intros Hsub.
  destruct (dealCards_entries random shuffledCards spread) as (dealt & Hdeal & _ & Hent).
  exists dealt. split; [done|]. intros pc [i Hi]%list_elem_of_lookup.
  destruct (Hent i) as (pc' & card & p & Hpc' & Hcard & Hp & Hid & Hpos).
  { by eapply lookup_lt_Some. }
  assert (pc' = pc) as -> by congruence.
  split.
  - rewrite Hid. apply Hsub. by eapply list_elem_of_lookup_2.
  - rewrite Hpos. apply list_elem_of_In, in_map, list_elem_of_In.
    by eapply list_elem_of_lookup_2.
Qed.
End DealMore.

(** X3. Dealing keeps a reading well formed: when the shuffled cards have
    pairwise different ids and the spread has pairwise different position
    indices, no card id is dealt twice and no position receives two cards. *)
Theorem dealCards_no_duplicates (random : nat → Q) (shuffledCards : list TarotCard.t)
    (spread : TarotSpread.t) :
  NoDup (TarotCard.id <$> shuffledCards) →
  NoDup (SpreadPosition.index <$> TarotSpread.positions spread) →
  ∃ dealt,
    dealCards random shuffledCards spread = Some dealt
    ∧ NoDup (PlacedCard.cardId <$> dealt)
    ∧ NoDup (PlacedCard.position <$> dealt).
Proof.
  intros Hids Hidx.
  destruct (dealCards_well_placed random shuffledCards spread Hids Hidx)
    as (dealt & Hdeal & Hc & Hp).
  by exists dealt.
Qed.

(** X4. A deck that is shuffled and dealt always interprets: with draws in
    [0, 1), shuffling the catalog, dealing the shuffled cards on any spread and
    interpreting the dealt cards against the same catalog returns a result,
    with one entry per spread position or per card, whichever are fewer. *)
Theorem shuffle_deal_interpret (random random' : nat → Q) (allCards : list TarotCard.t)
    (spread : TarotSpread.t) (combinationRules : list CombinationRule.t)
    (options : option InterpretationOptions.t) :
  unit_draws random →
  ∃ shuffled dealt r,
    shuffleDeck random allCards = Some shuffled
    ∧ dealCards random' shuffled spread = Some dealt
    ∧ interpretReading spread dealt allCards combinationRules options = inr r
    ∧ length (InterpretationResult.positions r)
      = length allCards `min` length (TarotSpread.positions spread).
Proof.
  intros Hdraws.
  destruct (shuffleDeck_calls_perm random allCards Hdraws) as (shuffled & Hrun & Hperm).
  destruct (dealCards_resolves random' shuffled spread allCards) as (dealt & Hdeal & Hres).
  { intros card Hcard. rewrite Hperm in Hcard.
    by apply list_elem_of_In, in_map, list_elem_of_In. }
  destruct (interpretReading_total spread dealt allCards combinationRules options Hres)
    as [r Hr].
  exists shuffled, dealt, r. unfold shuffleDeck. rewrite Hrun.
  split; [done|]. split; [done|]. split; [done|].
  apply interpretReading_inr, map_throwing_inr, Forall2_length in Hr. rewrite <- Hr.
  destruct (dealCards_entries random' shuffled spread) as (dealt' & Hdeal' & Hlen & _).
  assert (dealt' = dealt) as -> by congruence.
  rewrite Hlen, length_take. by rewrite Hperm.
Qed.

(** ** Which error is raised *)

Section FirstError.
Context (spread : TarotSpread.t) (allCards : list TarotCard.t).

Lemma map_throwing_first_error {A B} (f : A → result B) (before after : list A) (a : A)
    (e : EngineError) :
  (∀ a', a' ∈ before → ∃ b, f a' = inr b) →
  f a = inl e →
  map_throwing f (before ++ a :: after) = inl e.
Proof.
  intros Hbefore Ha. induction before as [|a0 before IH]; simpl.
  - by rewrite Ha.
  - destruct (Hbefore a0) as [b ->]; [apply list_elem_of_here|]. simpl.
    rewrite IH; [done|]. intros a' Ha'. apply Hbefore. by apply list_elem_of_further.
Qed.

(** The card is looked up before the position. *)
Lemma interpretPosition_error placedCards reversalMode pc :
  ¬ resolves spread allCards pc →
  interpretPosition spread placedCards (cardMap_of allCards) reversalMode pc
  = inl (if decide (PlacedCard.cardId pc ∈ map TarotCard.id allCards)
         then PositionNotFound (PlacedCard.position pc)
         else CardNotFound (PlacedCard.cardId pc)).
Proof.
  intros Hbad. unfold interpretPosition.
  destruct (cardMap_of allCards !! PlacedCard.cardId pc) as [card|] eqn:Hcard.
  - assert (PlacedCard.cardId pc ∈ map TarotCard.id allCards) as Hin
      by (apply cardMap_of_is_Some; by eexists).
    rewrite decide_True by done.
    destruct (findPosition spread (PlacedCard.position pc)) as [p|] eqn:Hp; [|done].
    destruct Hbad. split; [done|]. apply findPosition_is_Some. by eexists.
  - rewrite decide_False; [done|].
    rewrite <- cardMap_of_is_Some, Hcard. by intros [? ?].
Qed.
End FirstError.

(** X5. The error of a failing call is that of the first placed card that
    does not resolve, and for that card a missing card is reported before a
    missing position: the call fails with "position not found" only if the
    card of that entry is in the catalog. Later entries, resolving or not,
    play no part. *)
Theorem interpretReading_first_error (spread : TarotSpread.t)
    (before after : list PlacedCard.t) (pc : PlacedCard.t) (allCards : list TarotCard.t)
    (combinationRules : list CombinationRule.t) (options : option InterpretationOptions.t) :
  (∀ pc', pc' ∈ before → resolves spread allCards pc') →
  ¬ resolves spread allCards pc →
  interpretReading spread (before ++ pc :: after) allCards combinationRules options
  = inl (if decide (PlacedCard.cardId pc ∈ map TarotCard.id allCards)
         then PositionNotFound (PlacedCard.position pc)
         else CardNotFound (PlacedCard.cardId pc)).
Proof.
  intros Hbefore Hbad. apply interpretReading_inl.
  apply map_throwing_first_error.
  - intros pc' Hpc'. by apply interpretPosition_total, Hbefore.
  - by apply interpretPosition_error.
Qed.

(** ** More on adjacency *)

Section AdjacencyMore.
Context (spread : TarotSpread.t).
Implicit Types (placedCards : list PlacedCard.t) (cur : PlacedCard.t).

Lemma NoDup_fmap_elem_of_inj {A B} (f : A → B) (l : list A) (x y : A) :
  NoDup (f <$> l) → x ∈ l → y ∈ l → f x = f y → x = y.
Proof.
  intros Hnd Hx Hy Hf. induction l as [|a l IH]; [by apply elem_of_nil in Hx|].
  rewrite fmap_cons in Hnd. apply NoDup_cons in Hnd as [Ha Hnd].
  apply elem_of_cons in Hx as [->|Hx], Hy as [->|Hy]; [done|..].
  - destruct Ha. rewrite Hf. by apply list_elem_of_fmap_2.
  - destruct Ha. rewrite <- Hf. by apply list_elem_of_fmap_2.
  - by apply IH.
Qed.

Lemma getAdjacentCards_positions placedCards cur c :
  NoDup (PlacedCard.position <$> placedCards) → cur ∈ placedCards →
  c ∈ getAdjacentCards placedCards cur spread →
  PlacedCard.position c
  ∈ [(PlacedCard.position cur - 1)%Z; (PlacedCard.position cur + 1)%Z].
Proof.
  intros Hnd Hcur [Hc [Hid Hpos]]%elem_of_getAdjacentCards.
  destruct (decide (PlacedCard.position c = PlacedCard.position cur)) as [Heq|Hne].
  - destruct Hid. f_equal.
    by apply (NoDup_fmap_elem_of_inj PlacedCard.position placedCards).
  - rewrite !elem_of_cons. lia.
Qed.

Lemma getAdjacencyInfluence_few placedCards cur cardMap :
  length (getAdjacentCards placedCards cur spread) < 2 →
  getAdjacencyInfluence placedCards cur cardMap spread = "".
Proof.
  intros Hfew. unfold getAdjacencyInfluence.
  set (adj := getAdjacentCards placedCards cur spread) in *.
  assert (∀ suit, ¬ 2 ≤ sameSuitCount cardMap suit adj) as Hsuit.
  { intros suit. unfold sameSuitCount.
    pose proof (length_filter
                  (λ a : PlacedCard.t,
                     (cardMap !! PlacedCard.cardId a) ≫= TarotCard.suit = Some suit) adj).
    lia. }
  assert (¬ 2 ≤ adjacentMajorCount cardMap adj) as Hmajor.
  { unfold adjacentMajorCount.
    pose proof (length_filter
                  (λ a : PlacedCard.t,
                     TarotCard.arcana <$> (cardMap !! PlacedCard.cardId a) = Some Major) adj).
    lia. }
  assert (¬ 2 ≤ adjacentReversedCount adj) as Hrev.
  { unfold adjacentReversedCount.
    pose proof (length_filter (λ a : PlacedCard.t, PlacedCard.orientation a = reversed) adj).
    lia. }
  rewrite (decide_False _ _ Hmajor), (decide_False _ _ Hrev).
  destruct (truthy_opt _) as [suit|]; [|done].
  by rewrite (decide_False _ _ (Hsuit suit)).
Qed.
End AdjacencyMore.

(** X6. On integer position indices (the only ones this embedding has;
    between fractional indices the statement would not hold): when no position
    holds two cards, a placed card has at most two adjacent cards, one on the
    position before its own and one on the position after. *)
Theorem adjacent_at_most_two (spread : TarotSpread.t) (placedCards : list PlacedCard.t)
    (cur : PlacedCard.t) :
  NoDup (PlacedCard.position <$> placedCards) → cur ∈ placedCards →
  length (getAdjacentCards placedCards cur spread) ≤ 2
  ∧ ∀ c, c ∈ getAdjacentCards placedCards cur spread →
         (PlacedCard.position c = PlacedCard.position cur - 1
          ∨ PlacedCard.position c = PlacedCard.position cur + 1)%Z.
Proof.
  intros Hnd Hcur. split.
  - rewrite <- (length_fmap PlacedCard.position).
    change 2 with (length [(PlacedCard.position cur - 1)%Z; (PlacedCard.position cur + 1)%Z]).
    apply submseteq_length, NoDup_submseteq.
    + eapply sublist_NoDup; [exact Hnd|]. apply fmap_sublist, sublist_filter.
    + intros z (c & -> & Hc)%list_elem_of_fmap.
      by eapply getAdjacentCards_positions.
  - intros c Hc.
    pose proof (getAdjacentCards_positions spread placedCards cur c Hnd Hcur Hc) as Hpos.
    rewrite !elem_of_cons, elem_of_nil in Hpos. tauto.
Qed.

(** X7. A reading of one or two cards never gets an adjacency note: for a
    card among at most two placed cards the adjacency text is empty, whatever
    the cards, their positions and their orientations. *)
Theorem small_reading_no_adjacency_note (spread : TarotSpread.t)
    (placedCards : list PlacedCard.t) (cur : PlacedCard.t)
    (cardMap : gmap string TarotCard.t) :
  cur ∈ placedCards → length placedCards ≤ 2 →
  getAdjacencyInfluence placedCards cur cardMap spread = "".
Proof.
  intros Hcur Hlen. apply getAdjacencyInfluence_few.
  unfold getAdjacentCards.
  pose proof (length_filter_lt
                (λ card : PlacedCard.t,
                   PlacedCard.cardId card ≠ PlacedCard.cardId cur
                   ∧ (Z.abs (PlacedCard.position card - PlacedCard.position cur) ≤ 1)%Z)
                placedCards cur Hcur) as Hlt.
  assert (length
            (filter (λ card : PlacedCard.t,
                       PlacedCard.cardId card ≠ PlacedCard.cardId cur
                       ∧ (Z.abs (PlacedCard.position card - PlacedCard.position cur) ≤ 1)%Z)
                    placedCards) < length placedCards); [|lia].
  apply Hlt. by intros [? _].
Qed.

(** ** The texts and the counts of a result *)

Section Texts.
Context (spread : TarotSpread.t) (placedCards : list PlacedCard.t)
        (allCards : list TarotCard.t) (reversalMode : ReversalMode).

Lemma string_app_nil_r (s : string) : s +:+ "" = s.
Proof.
  induction s as [|c s IH]; [done|].
  change (String c (s +:+ "") = String c s). by f_equal.
Qed.

Lemma getPositionModifier_truthy position card orientation :
  truthy (getPositionModifier position card orientation) = true.
Proof. reflexivity. Qed.

Lemma composeLongInterpretation_modifier position card orientation baseLong adjacencyNotes :
  composeLongInterpretation position card orientation baseLong
    (getPositionModifier position card orientation) adjacencyNotes
  = TarotCard.name card +:+ " in " +:+ SpreadPosition.name position +:+ " ("
    +:+ show_orientation orientation +:+ ") — " +:+ baseLong +:+ " "
    +:+ getPositionModifier position card orientation
    +:+ (if truthy adjacencyNotes then " " +:+ adjacencyNotes else "").
Proof.
  unfold composeLongInterpretation. rewrite getPositionModifier_truthy.
  destruct (truthy adjacencyNotes); rewrite ?string_app_assoc, ?string_app_nil_r;
    reflexivity.
Qed.
End Texts.

(** X8. The long text of every entry carries the position sentence: it is
    the card name, the position name, the orientation and the base long text,
    then the sentence "As ..., this energy is ... and suggests ...." (never
    left out: it is never empty), then the adjacency notes if there are any,
    each part separated from the previous one by one space. *)
Theorem interpretationLong_layout (spread : TarotSpread.t)
    (placedCards : list PlacedCard.t) (allCards : list TarotCard.t)
    (reversalMode : ReversalMode) (pc : PlacedCard.t) (e : PositionReading.t) :
  interpretPosition spread placedCards (cardMap_of allCards) reversalMode pc = inr e →
  ∃ card p,
    cardMap_of allCards !! PlacedCard.cardId pc = Some card
    ∧ findPosition spread (PlacedCard.position pc) = Some p
    ∧ PositionReading.interpretationLong e
      = TarotCard.name card +:+ " in " +:+ SpreadPosition.name p +:+ " ("
        +:+ show_orientation (PlacedCard.orientation pc) +:+ ") — "
        +:+ BaseInterpretation.long
              (getBaseInterpretation card (PlacedCard.orientation pc) reversalMode)
        +:+ " " +:+ getPositionModifier p card (PlacedCard.orientation pc)
        +:+ (if truthy (getAdjacencyInfluence placedCards pc (cardMap_of allCards) spread)
             then " " +:+ getAdjacencyInfluence placedCards pc (cardMap_of allCards) spread
             else "").
Proof.
  intros He.
  apply interpretPosition_texts in He as (card & p & Hcard & Hp & _ & Hlong).
  exists card, p. split; [done|]. split; [done|].
  rewrite Hlong. apply composeLongInterpretation_modifier.
Qed.

Section Counts.
Lemma Forall2_filter_length {A B} (R : A → B → Prop) (P : A → Prop) (Q : B → Prop)
    `{!∀ x, Decision (P x)} `{!∀ y, Decision (Q y)} (l : list A) (k : list B) :
  Forall2 R l k → (∀ x y, R x y → (P x ↔ Q y)) →
  length (filter P l) = length (filter Q k).
Proof.
  intros HR Hiff. induction HR as [|x y l k Hxy HR IH]; [done|].
  rewrite !filter_cons. specialize (Hiff x y Hxy).
  destruct (decide (P x)), (decide (Q y)); simpl; try tauto; by rewrite IH.
Qed.

Lemma resolvedCards_major placedCards (cardMap : gmap string TarotCard.t) :
  length (filter (λ c, TarotCard.arcana c = Major) (resolvedCards placedCards cardMap))
  = length (filter (λ pc : PlacedCard.t,
                      TarotCard.arcana <$> (cardMap !! PlacedCard.cardId pc) = Some Major)
                   placedCards).
Proof.
  unfold resolvedCards. induction placedCards as [|pc l IH]; [done|].
  rewrite filter_cons. cbn [omap list_omap].
  destruct (cardMap !! PlacedCard.cardId pc) as [card|] eqn:Hc.
  - rewrite filter_cons.
    destruct (decide (TarotCard.arcana card = Major)) as [Hm|Hm].
    + rewrite decide_True by (simpl; congruence). cbn [length]. by rewrite IH.
    + rewrite decide_False by (simpl; congruence). done.
  - rewrite decide_False by done. done.
Qed.
End Counts.

(** X9. The two counts of a result agree with its entries:
    [majorArcanaCount] is the number of entries whose card is a Major Arcana
    card of the catalog and [reversedCount] the number of reversed entries, so
    neither exceeds the number of entries. *)
Theorem result_counts (spread : TarotSpread.t) (placedCards : list PlacedCard.t)
    (allCards : list TarotCard.t) (combinationRules : list CombinationRule.t)
    (options : option InterpretationOptions.t) (r : InterpretationResult.t) :
  interpretReading spread placedCards allCards combinationRules options = inr r →
  InterpretationResult.majorArcanaCount r
  = length (filter (λ e : PositionReading.t,
                      TarotCard.arcana <$> (cardMap_of allCards !! PositionReading.cardId e)
                      = Some Major)
                   (InterpretationResult.positions r))
  ∧ InterpretationResult.reversedCount r
    = length (filter (λ e : PositionReading.t, PositionReading.orientation e = reversed)
                     (InterpretationResult.positions r))
  ∧ InterpretationResult.majorArcanaCount r ≤ length (InterpretationResult.positions r)
  ∧ InterpretationResult.reversedCount r ≤ length (InterpretationResult.positions r).
Proof.
  intros Hr.
  pose proof (interpretReading_analysis _ _ _ _ _ _ Hr) as (_ & _ & _ & Hmajor & Hrev).
  apply interpretReading_inr, map_throwing_inr in Hr.
  assert (Forall2 (λ pc e,
                     PositionReading.cardId e = PlacedCard.cardId pc
                     ∧ PositionReading.orientation e = PlacedCard.orientation pc)
                  placedCards (InterpretationResult.positions r)) as Hfields.
  { eapply Forall2_impl; [exact Hr|]. intros pc e He. simpl in He.
    by apply interpretPosition_inr in He as (_ & ? & ? & _). }
  assert (InterpretationResult.majorArcanaCount r
          = length (filter (λ e : PositionReading.t,
                              TarotCard.arcana
                              <$> (cardMap_of allCards !! PositionReading.cardId e)
                              = Some Major)
                           (InterpretationResult.positions r))) as Hm.
  { rewrite Hmajor. simpl. rewrite resolvedCards_major.
    eapply Forall2_filter_length; [exact Hfields|].
    intros pc e [-> _]. done. }
  assert (InterpretationResult.reversedCount r
          = length (filter (λ e : PositionReading.t,
                              PositionReading.orientation e = reversed)
                           (InterpretationResult.positions r))) as Hv.
  { rewrite Hrev. simpl.
    eapply Forall2_filter_length; [exact Hfields|].
    intros pc e [_ ->]. done. }
  split; [done|]. split; [done|].
  rewrite Hm, Hv. split; apply length_filter.
Qed.

(** ** Catalogs with repeated ids *)

Section CatalogMore.
Lemma cardMap_fold_other (after : list TarotCard.t) (m : gmap string TarotCard.t) k :
  k ∉ map TarotCard.id after →
  fold_left (λ m c, <[TarotCard.id c := c]> m) after m !! k = m !! k.
Proof.
  revert m. induction after as [|c after IH]; intros m Hk; simpl; [done|].
  simpl in Hk. apply not_elem_of_cons in Hk as [Hne Hk].
  rewrite IH by done. by rewrite lookup_insert_ne.
Qed.
End CatalogMore.

(** X10. Of several catalog cards with one id the engine reads the last:
    a card of the catalog is the one found under its id whenever no later card
    of the catalog has that id. *)
Theorem cardMap_of_last_wins (before after : list TarotCard.t) (card : TarotCard.t) :
  TarotCard.id card ∉ map TarotCard.id after →
  cardMap_of (before ++ card :: after) !! TarotCard.id card = Some card.
Proof.
  intros Hlast. unfold cardMap_of. rewrite fold_left_app. simpl.
  rewrite cardMap_fold_other by done. apply lookup_insert_eq.
Qed.

(** ** Suggested actions *)

(** X11. The suggested actions, truncation included. They are, in this
    order: the synchronicity advice when at least 2 cards are Major Arcana; the
    advice of the dominant suit when it is one of cups, wands, swords and
    pentacles; the balance advice when "balance" is a keyword; and the
    transformation advice when "transformation" is a keyword, unless the three
    before it are all present, in which case the limit of 3 drops it. *)
Theorem generateSuggestedActions_explicit (majorCount : nat) (dominantSuit : option string)
    (keywords : list string) :
  generateSuggestedActions majorCount dominantSuit keywords
  = (if decide (2 ≤ majorCount)
     then ["Pay attention to synchronicities and signs in your daily life"] else [])
    ++ (if decide (dominantSuit = Some "cups")
        then ["Focus on emotional healing and nurturing relationships"]
        else if decide (dominantSuit = Some "wands")
        then ["Take inspired action on creative projects and passions"]
        else if decide (dominantSuit = Some "swords")
        then ["Practice clear communication and mental clarity"]
        else if decide (dominantSuit = Some "pentacles")
        then ["Focus on practical matters and building stable foundations"]
        else [])
    ++ (if decide ("balance" ∈ keywords)
        then ["Seek balance and moderation in all areas of life"] else [])
    ++ (if decide ("transformation" ∈ keywords
                   ∧ ¬ (2 ≤ majorCount
                        ∧ dominantSuit
                          ∈ [Some "cups"; Some "wands"; Some "swords"; Some "pentacles"]
                        ∧ "balance" ∈ keywords))
        then ["Embrace change as an opportunity for growth"] else []).
Proof.
  unfold generateSuggestedActions.
  assert (∀ s, dominantSuit = Some s →
               s ∈ ["cups"; "wands"; "swords"; "pentacles"] →
               dominantSuit ∈ [Some "cups"; Some "wands"; Some "swords"; Some "pentacles"])
    as Hin.
  { intros s -> Hs. by apply (list_elem_of_fmap_2 Some) in Hs. }
  assert (dominantSuit ∈ [Some "cups"; Some "wands"; Some "swords"; Some "pentacles"] →
          dominantSuit = Some "cups" ∨ dominantSuit = Some "wands"
          ∨ dominantSuit = Some "swords" ∨ dominantSuit = Some "pentacles") as Hout.
  { rewrite !elem_of_cons, elem_of_nil. tauto. }
  destruct (decide (2 ≤ majorCount)) as [Hm|Hm];
    destruct (decide ("balance" ∈ keywords)) as [Hb|Hb];
    destruct (decide ("transformation" ∈ keywords)) as [Ht|Ht];
    repeat (match goal with
            | |- context [decide (dominantSuit = Some ?s)] =>
                destruct (decide (dominantSuit = Some s))
            end);
    match goal with
    | |- context [decide (?P ∧ ¬ ?Q)] =>
        destruct (decide (P ∧ ¬ Q)) as [[Htr Hfull]|Hfull]
    end;
    try reflexivity; exfalso; try done.
  all: try (apply Hfull; split; [done|]; intros (? & Hd%Hout & ?); tauto).
  all: try (apply Hfull; eauto 10 using list_elem_of_here, list_elem_of_further).
Qed.

(** ** Reordering the placed cards *)

Section Reorder.
Context (spread : TarotSpread.t) (cardMap : gmap string TarotCard.t).
Implicit Types (placedCards : list PlacedCard.t).

Lemma getAdjacencyInfluence_perm placedCards placedCards' cur :
  placedCards ≡ₚ placedCards' →
  getAdjacencyInfluence placedCards cur cardMap spread
  = getAdjacencyInfluence placedCards' cur cardMap spread.
Proof.
  intros Hperm. unfold getAdjacencyInfluence.
  assert (∀ suit,
            sameSuitCount cardMap suit (getAdjacentCards placedCards cur spread)
            = sameSuitCount cardMap suit (getAdjacentCards placedCards' cur spread)) as Hsuit.
  { intros suit. unfold sameSuitCount, getAdjacentCards. by rewrite Hperm. }
  assert (adjacentMajorCount cardMap (getAdjacentCards placedCards cur spread)
          = adjacentMajorCount cardMap (getAdjacentCards placedCards' cur spread)) as ->.
  { unfold adjacentMajorCount, getAdjacentCards. by rewrite Hperm. }
  assert (adjacentReversedCount (getAdjacentCards placedCards cur spread)
          = adjacentReversedCount (getAdjacentCards placedCards' cur spread)) as ->.
  { unfold adjacentReversedCount, getAdjacentCards. by rewrite Hperm. }
  destruct (truthy_opt _) as [suit|]; [|done]. by rewrite Hsuit.
Qed.

Lemma interpretPosition_perm placedCards placedCards' reversalMode pc :
  placedCards ≡ₚ placedCards' →
  interpretPosition spread placedCards cardMap reversalMode pc
  = interpretPosition spread placedCards' cardMap reversalMode pc.
Proof.
  intros Hperm. unfold interpretPosition.
  by rewrite (getAdjacencyInfluence_perm placedCards placedCards' pc Hperm).
Qed.

Lemma map_throwing_ext {A B} (f g : A → result B) (l : list A) :
  (∀ a, f a = g a) → map_throwing f l = map_throwing g l.
Proof.
  intros Hfg. induction l as [|a l IH]; simpl; [done|]. by rewrite Hfg, IH.
Qed.

Lemma map_throwing_perm {A B} (f : A → result B) (l l' : list A) (bs : list B) :
  l ≡ₚ l' → map_throwing f l = inr bs →
  ∃ bs', map_throwing f l' = inr bs' ∧ bs' ≡ₚ bs.
Proof.
  intros Hperm. revert bs.
  induction Hperm as [|a l l' Hperm IH|a1 a2 l|l1 l2 l3 H12 IH12 H23 IH23]; intros bs Hbs.
  - exists bs. by split.
  - simpl in *. destruct (f a) as [e|b]; [done|]. simpl in *.
    destruct (map_throwing f l) as [e|bs0]; [done|]. simpl in Hbs. injection Hbs as <-.
    destruct (IH bs0 eq_refl) as (bs0' & -> & Hbs0'). simpl.
    exists (b :: bs0'). split; [done | by constructor].
  - simpl in *. destruct (f a1) as [e|b1]; destruct (f a2) as [e'|b2]; try done.
    simpl in *. destruct (map_throwing f l) as [e|bs0]; [done|]. simpl in *.
    injection Hbs as <-. exists (b1 :: b2 :: bs0). split; [done | apply Permutation_swap].
  - destruct (IH12 bs Hbs) as (bs2 & H2 & Hp2).
    destruct (IH23 bs2 H2) as (bs3 & H3 & Hp3).
    exists bs3. split; [done | by rewrite Hp3].
Qed.
End Reorder.

(** X12. Placing the same cards in another order changes no entry: if a
    reading is interpreted, so is every reordering of its placed cards, with
    the same entries (in the new order) and the same Major Arcana and reversed
    counts. Only what breaks ties by first encounter can differ. *)
Theorem interpretReading_reordered (spread : TarotSpread.t)
    (placedCards placedCards' : list PlacedCard.t) (allCards : list TarotCard.t)
    (combinationRules : list CombinationRule.t) (options : option InterpretationOptions.t)
    (r : InterpretationResult.t) :
  placedCards ≡ₚ placedCards' →
  interpretReading spread placedCards allCards combinationRules options = inr r →
  ∃ r',
    interpretReading spread placedCards' allCards combinationRules options = inr r'
    ∧ InterpretationResult.positions r' ≡ₚ InterpretationResult.positions r
    ∧ InterpretationResult.majorArcanaCount r' = InterpretationResult.majorArcanaCount r
    ∧ InterpretationResult.reversedCount r' = InterpretationResult.reversedCount r.
Proof.
  intros Hperm Hr.
  pose proof (interpretReading_analysis _ _ _ _ _ _ Hr) as (_ & _ & _ & Hmajor & Hrev).
  apply interpretReading_inr in Hr.
  destruct (map_throwing_perm _ _ _ _ Hperm Hr) as (bs' & Hbs' & Hp).
  rewrite (map_throwing_ext _
             (interpretPosition spread placedCards' (cardMap_of allCards)
                (reversalMode_of options))) in Hbs'
    by (intros pc; by apply interpretPosition_perm).
  unfold interpretReading. rewrite Hbs'. simpl. eexists. split; [reflexivity|].
  simpl. split; [done|]. rewrite Hmajor, Hrev. simpl.
  unfold resolvedCards. by rewrite Hperm.
Qed.

(** ** The reading page *)

Section Place.
Implicit Types (l : list PlacedCard.t) (new : PlacedCard.t).

(** The placed cards after a card has been put on a position: it takes the
    place of the first card of that position, or goes last. *)
Lemma place_getCardAtPosition l new :
  let l' := match fst <$> list_find (λ pc, PlacedCard.position pc = PlacedCard.position new) l
            with
            | Some i => <[i := new]> l
            | None => l ++ [new]
            end in
  getCardAtPosition l' (PlacedCard.position new) = Some new
  ∧ ∀ p, p ≠ PlacedCard.position new → getCardAtPosition l' p = getCardAtPosition l p.
Proof.
  unfold getCardAtPosition. induction l as [|a l IH].
  - simpl. rewrite bool_decide_eq_true_2 by done. split; [done|].
    intros p Hp. by rewrite bool_decide_eq_false_2.
  - cbn [list_find]. destruct (decide (PlacedCard.position a = PlacedCard.position new))
      as [Ha|Ha].
    + simpl. rewrite bool_decide_eq_true_2 by done. split; [done|].
      intros p Hp. rewrite !bool_decide_eq_false_2 by congruence. done.
    + destruct IH as [IH1 IH2].
      destruct (list_find (λ pc, PlacedCard.position pc = PlacedCard.position new) l)
        as [[i x]|]; simpl in *.
      * rewrite bool_decide_eq_false_2 by done. split; [done|].
        intros p Hp. by rewrite IH2.
      * rewrite bool_decide_eq_false_2 by done. split; [done|].
        intros p Hp. by rewrite IH2.
Qed.

Lemma place_well_placed l new :
  PlacedCard.cardId new ∉ PlacedCard.cardId <$> l →
  well_placed l →
  well_placed match fst <$> list_find (λ pc, PlacedCard.position pc = PlacedCard.position new) l
              with
              | Some i => <[i := new]> l
              | None => l ++ [new]
              end.
Proof.
  intros Hnew [Hids Hpos]. unfold well_placed.
  destruct (list_find (λ pc, PlacedCard.position pc = PlacedCard.position new) l)
    as [[i x]|] eqn:Hfind; simpl.
  - apply list_find_Some in Hfind as (Hi & Hx & _).
    rewrite !list_fmap_insert. split.
    + rewrite insert_take_drop by (rewrite length_fmap; by eapply lookup_lt_Some).
      rewrite <- (take_drop_middle _ i (PlacedCard.cardId x)) in Hids, Hnew
        by (by rewrite list_lookup_fmap, Hi).
      apply NoDup_app in Hids as (Ht & Hcross & [Hx' Hd]%NoDup_cons).
      apply NoDup_app. split; [done|]. split.
      * intros k Hk [->|Hk']%elem_of_cons.
        -- apply Hnew, elem_of_app. by left.
        -- apply (Hcross k Hk). by apply list_elem_of_further.
      * apply NoDup_cons. split; [|done].
        intros Hin. apply Hnew, elem_of_app. right. by apply list_elem_of_further.
    + rewrite list_insert_id; [done|]. by rewrite list_lookup_fmap, Hi, <- Hx.
  - apply list_find_None in Hfind. rewrite !fmap_app. simpl. split.
    + apply NoDup_app. split; [done|]. split; [|apply NoDup_singleton].
      by intros k Hk ->%list_elem_of_singleton.
    + apply NoDup_app. split; [done|]. split; [|apply NoDup_singleton].
      intros z (pc & -> & Hpc)%list_elem_of_fmap Hz%list_elem_of_singleton.
      rewrite Forall_forall in Hfind. by apply (Hfind pc Hpc).
Qed.

Lemma handleCardPlace_placed (st : Home.t) position cardId orientation :
  cardId ∉ PlacedCard.cardId <$> Home.placedCards st →
  let new := {| PlacedCard.cardId := cardId; PlacedCard.orientation := orientation;
                PlacedCard.position := position;
                PlacedCard.x := None; PlacedCard.y := None |} in
  (handleCardPlace st position cardId orientation).1
  = {| Home.selectedSpread := Home.selectedSpread st;
       Home.placedCards :=
         match fst <$> list_find (λ pc, PlacedCard.position pc = position)
                         (Home.placedCards st) with
         | Some i => <[i := new]> (Home.placedCards st)
         | None => Home.placedCards st ++ [new]
         end;
       Home.interpretation := None;
       Home.isManualMode := Home.isManualMode st |}.
Proof.
  intros Hfree new. unfold handleCardPlace.
  rewrite bool_decide_eq_false_2; [done|].
  rewrite Exists_exists. intros (pc & Hpc & <-).
  apply Hfree. by apply list_elem_of_fmap_2.
Qed.

Lemma handleCardPlace_refused (st : Home.t) position cardId orientation :
  cardId ∈ PlacedCard.cardId <$> Home.placedCards st →
  (handleCardPlace st position cardId orientation).1 = st.
Proof.
  intros (pc & -> & Hpc)%list_elem_of_fmap. unfold handleCardPlace.
  rewrite bool_decide_eq_true_2; [done|]. apply Exists_exists. by exists pc.
Qed.
End Place.

(** X13. Placing a card keeps the reading well formed: if no card id is
    placed twice and no position holds two cards before [handleCardPlace]
    runs, the same holds after it, whatever card, position and orientation it
    is called with. *)
Theorem handleCardPlace_well_placed (st : Home.t) (position : Z) (cardId : string)
    (orientation : Orientation) :
  well_placed (Home.placedCards st) →
  well_placed (Home.placedCards (handleCardPlace st position cardId orientation).1).
Proof.
  intros Hwp.
  destruct (decide (cardId ∈ PlacedCard.cardId <$> Home.placedCards st)) as [Hin|Hfree].
  - by rewrite handleCardPlace_refused.
  - rewrite handleCardPlace_placed by done. simpl.
    by apply (place_well_placed (Home.placedCards st)
                {| PlacedCard.cardId := cardId; PlacedCard.orientation := orientation;
                   PlacedCard.position := position;
                   PlacedCard.x := None; PlacedCard.y := None |}).
Qed.

(** X14. What placing a card does. A card whose id is already placed is
    refused and the state stays as it is. Otherwise the board then shows the
    new card at the position it was dropped on (replacing the card that was
    there, if any), shows at every other position what it showed before, and
    the interpretation is cleared. *)
Theorem handleCardPlace_board (st : Home.t) (position : Z) (cardId : string)
    (orientation : Orientation) :
  let st' := (handleCardPlace st position cardId orientation).1 in
  (cardId ∈ PlacedCard.cardId <$> Home.placedCards st → st' = st)
  ∧ (cardId ∉ PlacedCard.cardId <$> Home.placedCards st →
     getCardAtPosition (Home.placedCards st') position
     = Some {| PlacedCard.cardId := cardId; PlacedCard.orientation := orientation;
               PlacedCard.position := position;
               PlacedCard.x := None; PlacedCard.y := None |}
     ∧ (∀ p, p ≠ position →
             getCardAtPosition (Home.placedCards st') p
             = getCardAtPosition (Home.placedCards st) p)
     ∧ Home.interpretation st' = None).
Proof.
  intros st'. split.
  - apply handleCardPlace_refused.
  - intros Hfree. unfold st'. rewrite handleCardPlace_placed by done. simpl.
    destruct (place_getCardAtPosition (Home.placedCards st)
                {| PlacedCard.cardId := cardId; PlacedCard.orientation := orientation;
                   PlacedCard.position := position;
                   PlacedCard.x := None; PlacedCard.y := None |}) as [H1 H2].
    by split; [|split].
Qed.

Section Toggle.
Lemma toggleOrientation_involutive o : toggleOrientation (toggleOrientation o) = o.
Proof. by destruct o. Qed.

Lemma handleCardToggle_fields (st : Home.t) cardId :
  PlacedCard.cardId <$> Home.placedCards (handleCardToggle st cardId).1
  = PlacedCard.cardId <$> Home.placedCards st
  ∧ PlacedCard.position <$> Home.placedCards (handleCardToggle st cardId).1
    = PlacedCard.position <$> Home.placedCards st.
Proof.
  simpl. rewrite <- !list_fmap_compose.
  split; apply list_fmap_ext; intros i pc _; simpl; by case_decide.
Qed.
End Toggle.

(** X15. Clicking a card twice restores the reading: toggling the same card
    id two times gives back the placed cards as they were. One toggle reverses
    the orientation of the cards with that id and of no other, and moves no
    card. *)
Theorem handleCardToggle_twice (st : Home.t) (cardId : string) :
  Home.placedCards (handleCardToggle (handleCardToggle st cardId).1 cardId).1
  = Home.placedCards st
  ∧ Forall2 (λ pc pc',
               PlacedCard.cardId pc' = PlacedCard.cardId pc
               ∧ PlacedCard.position pc' = PlacedCard.position pc
               ∧ PlacedCard.orientation pc'
                 = if decide (PlacedCard.cardId pc = cardId)
                   then toggleOrientation (PlacedCard.orientation pc)
                   else PlacedCard.orientation pc)
            (Home.placedCards st) (Home.placedCards (handleCardToggle st cardId).1).
Proof.
  split.
  - simpl. rewrite <- list_fmap_compose. rewrite <- (list_fmap_id (Home.placedCards st)) at 2.
    apply list_fmap_ext. intros i pc _. simpl.
    destruct (decide (PlacedCard.cardId pc = cardId)) as [Heq|Hne]; simpl.
    + rewrite decide_True by done. simpl. rewrite toggleOrientation_involutive.
      by destruct pc.
    + by rewrite decide_False.
  - simpl. apply Forall2_fmap_r, Forall_Forall2_diag, Forall_forall.
    intros pc _. unfold compose. by case_decide.
Qed.

Section Reachable.
Context (random : nat → Q) (spreads : list TarotSpread.t) (cards : list TarotCard.t).

Lemma swap_perm {A} (a a' : list A) i j : swap a i j = Some a' → a' ≡ₚ a.
Proof.
  unfold swap. case_decide; [|done].
  destruct (a !! i) as [ai|] eqn:Hai; [|done].
  destruct (a !! Z.to_nat j) as [aj|] eqn:Haj; [|done].
  simpl. intros [= <-]. by apply Permutation_insert_swap.
Qed.

(** Whatever the draws, a shuffle that returns returns a rearrangement. *)
Lemma shuffle_loop_Some_perm {A} (rnd : nat → Q) call i (a a' : list A) calls :
  shuffle_loop rnd call i a = Some (a', calls) → a' ≡ₚ a.
Proof.
  revert call a. induction i as [|i IH]; intros call a; cbn [shuffle_loop].
  - by intros [= <- _].
  - destruct (swap a (S i) _) as [a0|] eqn:Hswap; [|done]. cbn [mbind option_bind].
    intros Hrun. apply IH in Hrun. apply swap_perm in Hswap. by rewrite Hrun.
Qed.

Lemma handleShuffleAndDeal_well_placed rnd st st' toasts :
  NoDup (TarotCard.id <$> cards) →
  (∀ spread, Home.selectedSpread st = Some spread →
             NoDup (SpreadPosition.index <$> TarotSpread.positions spread)) →
  well_placed (Home.placedCards st) →
  handleShuffleAndDeal rnd cards st = Some (st', toasts) →
  well_placed (Home.placedCards st') ∧ Home.selectedSpread st' = Home.selectedSpread st.
Proof.
  intros Hids Hspread Hwp. unfold handleShuffleAndDeal.
  destruct (Home.selectedSpread st) as [spread|] eqn:Hsel; [|by intros [= <- _]].
  case_decide; [by intros [= <- _]|].
  destruct (shuffleDeck_calls rnd cards) as [[shuffled calls]|] eqn:Hshuffle; [|done].
  cbn [mbind option_bind].
  destruct (dealCards _ shuffled spread) as [dealt|] eqn:Hdeal; [|done].
  cbn [mbind option_bind]. intros [= <- _]. simpl. split; [|done].
  apply shuffle_loop_Some_perm in Hshuffle.
  destruct (dealCards_well_placed (λ n, rnd (calls + n)) shuffled spread)
    as (dealt' & Hdeal' & Hwp').
  - by rewrite Hshuffle.
  - by apply Hspread.
  - congruence.
Qed.

Lemma Home_step_invariant st st' :
  NoDup (TarotCard.id <$> cards) →
  (∀ spread, spread ∈ spreads →
             NoDup (SpreadPosition.index <$> TarotSpread.positions spread)) →
  Home_step random spreads cards st st' →
  well_placed (Home.placedCards st)
  ∧ (∀ spread, Home.selectedSpread st = Some spread → spread ∈ spreads) →
  well_placed (Home.placedCards st')
  ∧ (∀ spread, Home.selectedSpread st' = Some spread → spread ∈ spreads).
Proof.
  intros Hids Hspreads Hstep [Hwp Hsel].
  destruct Hstep as [st spread Hspread|st st' toasts offset Hdeal|st|st position cardId o
                     |st cardId|st|st result]; simpl.
  - split; [split; constructor|]. by intros ? [= <-].
  - apply handleShuffleAndDeal_well_placed in Hdeal as [Hwp' Hsel']; [|done| |done].
    + split; [done|]. by rewrite Hsel'.
    + intros spread Hs. by apply Hspreads, Hsel.
  - split; [split; constructor | done].
  - split.
    + destruct (decide (cardId ∈ PlacedCard.cardId <$> Home.placedCards st)) as [Hin|Hfree].
      * by rewrite handleCardPlace_refused.
      * rewrite handleCardPlace_placed by done. simpl.
        by apply (place_well_placed (Home.placedCards st)
                    {| PlacedCard.cardId := cardId; PlacedCard.orientation := o;
                       PlacedCard.position := position;
                       PlacedCard.x := None; PlacedCard.y := None |}).
    + destruct (decide (cardId ∈ PlacedCard.cardId <$> Home.placedCards st)) as [Hin|Hfree].
      * by rewrite handleCardPlace_refused.
      * by rewrite handleCardPlace_placed.
  - split; [|done]. destruct (handleCardToggle_fields st cardId) as [Hc Hp].
    unfold well_placed. simpl in Hc, Hp. by rewrite Hc, Hp.
  - split; [split; constructor | done].
  - done.
Qed.
End Reachable.

(** X16. In every state the page can reach, no card id is placed twice and
    no position holds two cards, provided the fetched catalog has no repeated
    id and the offered spreads have no repeated position index. This holds
    for every sequence of draws and every sequence of events: selecting a
    spread, shuffling and dealing, switching to manual selection, dropping a
    card, clicking a card, clearing, receiving an interpretation. *)
Theorem Home_reachable_well_placed (random : nat → Q) (spreads : list TarotSpread.t)
    (cards : list TarotCard.t) (st : Home.t) :
  NoDup (TarotCard.id <$> cards) →
  (∀ spread, spread ∈ spreads →
             NoDup (SpreadPosition.index <$> TarotSpread.positions spread)) →
  Home_reachable random spreads cards st →
  NoDup (PlacedCard.cardId <$> Home.placedCards st)
  ∧ NoDup (PlacedCard.position <$> Home.placedCards st).
Proof.
  intros Hids Hspreads Hreach.
  assert (well_placed (Home.placedCards st)
          ∧ (∀ spread, Home.selectedSpread st = Some spread → spread ∈ spreads)) as [H _];
    [|exact H].
  induction Hreach as [|st st' Hreach IH Hstep].
  - split; [split; constructor | done].
  - by eapply Home_step_invariant.
Qed.

(** X17. An interpretation on display is never kept across a change of the
    cards: whenever an event changes the placed cards, the interpretation is
    cleared by the same event. *)
Theorem Home_step_clears_interpretation (random : nat → Q) (spreads : list TarotSpread.t)
    (cards : list TarotCard.t) (st st' : Home.t) :
  Home_step random spreads cards st st' →
  Home.placedCards st' ≠ Home.placedCards st →
  Home.interpretation st' = None.
Proof.
  intros Hstep Hchanged.
  destruct Hstep as [st spread Hspread|st st' toasts offset Hdeal|st|st position cardId o
                     |st cardId|st|st result]; simpl in *; try done.
  - unfold handleShuffleAndDeal in Hdeal.
    destruct (Home.selectedSpread st); [|by injection Hdeal as <- _].
    case_decide; [by injection Hdeal as <- _|].
    destruct (shuffleDeck_calls _ cards) as [[shuffled calls]|]; [|done].
    cbn [mbind option_bind] in Hdeal.
    destruct (dealCards _ shuffled _) as [dealt|]; [|done].
    cbn [mbind option_bind] in Hdeal. by injection Hdeal as <- _.
  - destruct (decide (cardId ∈ PlacedCard.cardId <$> Home.placedCards st)) as [Hin|Hfree].
    + by rewrite handleCardPlace_refused in Hchanged.
    + by rewrite handleCardPlace_placed.
Qed.

(** ** The interpretation route *)

Section Route.
Context (storage : Storage.t).

Lemma convertDbSpreadToFrontendSpread_id spread :
  convertDbSpreadToFrontendSpread spread = spread.
Proof. by destruct spread. Qed.

Lemma convertDbCards_id (allCards : list TarotCard.t) :
  convertDbCardToFrontendCard <$> allCards = allCards.
Proof.
  rewrite <- (list_fmap_id allCards) at 2. apply list_fmap_ext.
  intros i card _. by destruct card.
Qed.

Lemma convertDbRules_id (rules : list CombinationRule.t) :
  convertDbCombinationRuleToFrontendRule <$> rules = rules.
Proof.
  rewrite <- (list_fmap_id rules) at 2. apply list_fmap_ext.
  intros i rule _. by destruct rule.
Qed.

Lemma find_first {A} (f : A → bool) (before after : list A) (x : A) :
  (∀ y, y ∈ before → f y = false) → f x = true →
  List.find f (before ++ x :: after) = Some x.
Proof.
  intros Hbefore Hx. induction before as [|y before IH]; simpl.
  - by rewrite Hx.
  - rewrite (Hbefore y) by apply list_elem_of_here.
    apply IH. intros y' Hy'. apply Hbefore. by apply list_elem_of_further.
Qed.

Lemma find_all_false {A} (f : A → bool) (l : list A) :
  (∀ y, y ∈ l → f y = false) → List.find f l = None.
Proof.
  intros Hl. induction l as [|y l IH]; simpl; [done|].
  rewrite (Hl y) by apply list_elem_of_here.
  apply IH. intros y' Hy'. apply Hl. by apply list_elem_of_further.
Qed.

Lemma missing_card_test (allCards : list TarotCard.t) (pc : PlacedCard.t) :
  negb (bool_decide (is_Some (cardMap_of allCards !! PlacedCard.cardId pc)))
  = bool_decide (PlacedCard.cardId pc ∉ map TarotCard.id allCards).
Proof.
  apply eq_true_iff_eq. rewrite negb_true_iff, bool_decide_eq_false, bool_decide_eq_true.
  by rewrite cardMap_of_is_Some.
Qed.
End Route.

(** X18. The answers of the interpretation route to an accepted request.
    An unknown spread id is answered 404. If some card id of the request is
    not in the catalog the answer is 400 and names the first such id; the
    engine is not run. If all card ids are known but some position is no
    index of the spread, the engine's error is answered 500 with a fixed
    message. Otherwise the answer is 200 with the result of the engine on the
    stored spread, cards and rules. *)
Theorem interpretRoute_answers (storage : Storage.t) (request : InterpretRequest.t) :
  let allCards := Storage.getAllCards storage in
  let cards := InterpretRequest.cards request in
  let response := interpretRoute storage request in
  match Storage.getSpread storage (InterpretRequest.spreadId request) with
  | None =>
      response = {| Response.status := 404; Response.body := JsonMessage "Spread not found" |}
  | Some spread =>
      (∀ before pc after,
         cards = before ++ pc :: after →
         (∀ pc', pc' ∈ before → PlacedCard.cardId pc' ∈ map TarotCard.id allCards) →
         PlacedCard.cardId pc ∉ map TarotCard.id allCards →
         response = {| Response.status := 400;
                       Response.body :=
                         JsonMessage ("Card not found: " +:+ PlacedCard.cardId pc) |})
      ∧ ((∀ pc, pc ∈ cards → PlacedCard.cardId pc ∈ map TarotCard.id allCards) →
         (∃ pc, pc ∈ cards
                ∧ PlacedCard.position pc
                  ∉ map SpreadPosition.index (TarotSpread.positions spread)) →
         response = {| Response.status := 500;
                       Response.body := JsonMessage "Failed to interpret reading" |})
      ∧ ((∀ pc, pc ∈ cards → resolves spread allCards pc) →
         ∃ r,
           interpretReading spread cards allCards
             (Storage.getAllCombinationRules storage) (InterpretRequest.options request)
           = inr r
           ∧ response = {| Response.status := 200; Response.body := JsonInterpretation r |})
  end.
Proof.
  intros allCards cards response. unfold response, interpretRoute.
  destruct (Storage.getSpread storage (InterpretRequest.spreadId request)) as [spread|];
    [|done].
  fold allCards cards.
  rewrite convertDbSpreadToFrontendSpread_id, convertDbCards_id, convertDbRules_id.
  split; [|split].
  - intros before pc after Hcards Hbefore Hpc.
    rewrite Hcards, (find_first _ before after pc); [done| |].
    + intros pc' Hpc'. rewrite missing_card_test. apply bool_decide_eq_false.
      intros Hno. by apply Hno, Hbefore.
    + rewrite missing_card_test. by apply bool_decide_eq_true.
  - intros Hknown (pc & Hpc & Hpos).
    rewrite find_all_false.
    2:{ intros pc' Hpc'. rewrite missing_card_test. apply bool_decide_eq_false.
        intros Hno. by apply Hno, Hknown. }
    destruct (interpretReading spread cards allCards _ _) as [err|r] eqn:Hrun; [done|].
    apply interpretReading_inr, map_throwing_inr in Hrun.
    apply list_elem_of_lookup in Hpc as [i Hi].
    destruct (Forall2_lookup_l _ _ _ _ _ Hrun Hi) as (e & _ & He).
    apply interpretPosition_inr in He as [[_ ?] _]. done.
  - intros Hres. rewrite find_all_false.
    2:{ intros pc' Hpc'. rewrite missing_card_test. apply bool_decide_eq_false.
        intros Hno. by apply Hno, Hres. }
    destruct (interpretReading_total spread cards allCards
                (Storage.getAllCombinationRules storage)
                (InterpretRequest.options request) Hres) as [r Hr].
    exists r. by rewrite Hr.
Qed.

(** ** The further properties on sample readings *)

Ltac by_compute := apply (bool_decide_unpack _); vm_compute; exact I.

Lemma half_draws : unit_draws (λ _, 1 # 2)%Q.
Proof. intros n. unfold Qle, Qlt. simpl. lia. Defined.

Lemma shuffleDeck_permutation_sample :
  unit_draws (λ _, 1 # 2)%Q
  ∧ ∃ shuffled,
      shuffleDeck (λ _, 1 # 2)%Q Sample.catalog = Some shuffled
      ∧ shuffled ≡ₚ Sample.catalog
      ∧ length shuffled = length Sample.catalog.
Proof.
  split; [exact half_draws|].
  exact (shuffleDeck_permutation (λ _, 1 # 2)%Q Sample.catalog half_draws).
Defined.

Lemma shuffleDeck_reaches_every_order_sample :
  [Sample.aceOfCups; Sample.fool] ≡ₚ [Sample.fool; Sample.aceOfCups]
  ∧ ∃ random,
      unit_draws random
      ∧ shuffleDeck random [Sample.fool; Sample.aceOfCups]
        = Some [Sample.aceOfCups; Sample.fool].
Proof.
  assert ([Sample.aceOfCups; Sample.fool] ≡ₚ [Sample.fool; Sample.aceOfCups]) as Hperm
    by apply Permutation_swap.
  split; [exact Hperm|].
  exact (shuffleDeck_reaches_every_order [Sample.fool; Sample.aceOfCups]
           [Sample.aceOfCups; Sample.fool] Hperm).
Defined.

Lemma dealCards_no_duplicates_sample :
  NoDup (TarotCard.id <$> Sample.catalog)
  ∧ NoDup (SpreadPosition.index <$> TarotSpread.positions Sample.threeCards)
  ∧ ∃ dealt,
      dealCards (λ _, 1 # 2)%Q Sample.catalog Sample.threeCards = Some dealt
      ∧ NoDup (PlacedCard.cardId <$> dealt)
      ∧ NoDup (PlacedCard.position <$> dealt).
Proof.
  assert (NoDup (TarotCard.id <$> Sample.catalog)) as Hids by by_compute.
  assert (NoDup (SpreadPosition.index <$> TarotSpread.positions Sample.threeCards)) as Hidx
    by by_compute.
  split; [exact Hids|]. split; [exact Hidx|].
  exact (dealCards_no_duplicates (λ _, 1 # 2)%Q Sample.catalog Sample.threeCards Hids Hidx).
Defined.

Lemma shuffle_deal_interpret_sample :
  unit_draws (λ _, 1 # 2)%Q
  ∧ ∃ shuffled dealt r,
      shuffleDeck (λ _, 1 # 2)%Q Sample.catalog = Some shuffled
      ∧ dealCards (λ _, 1 # 2)%Q shuffled Sample.threeCards = Some dealt
      ∧ interpretReading Sample.threeCards dealt Sample.catalog [] None = inr r
      ∧ length (InterpretationResult.positions r)
        = length Sample.catalog `min` length (TarotSpread.positions Sample.threeCards).
Proof.
  split; [exact half_draws|].
  exact (shuffle_deal_interpret (λ _, 1 # 2)%Q (λ _, 1 # 2)%Q Sample.catalog
           Sample.threeCards [] None half_draws).
Defined.

Lemma interpretReading_first_error_sample :
  let before := [Sample.place "major-0" upright 0] in
  let pc := Sample.place "cups-1" upright 7 in
  let after := [Sample.place "swords-9" upright 1] in
  (∀ pc', pc' ∈ before → resolves Sample.threeCards Sample.catalog pc')
  ∧ ¬ resolves Sample.threeCards Sample.catalog pc
  ∧ interpretReading Sample.threeCards (before ++ pc :: after) Sample.catalog [] None
    = inl (PositionNotFound 7).
Proof.
  intros before pc after.
  assert (∀ pc', pc' ∈ before → resolves Sample.threeCards Sample.catalog pc') as Hbefore.
  { intros pc' ->%list_elem_of_singleton. split; by_compute. }
  assert (¬ resolves Sample.threeCards Sample.catalog pc) as Hbad.
  { intros [_ Hpos]. revert Hpos. by_compute. }
  split; [exact Hbefore|]. split; [exact Hbad|].
  exact (interpretReading_first_error Sample.threeCards before after pc Sample.catalog []
           None Hbefore Hbad).
Defined.

Lemma adjacent_at_most_two_sample :
  let cur := Sample.place "cups-1" reversed 1 in
  NoDup (PlacedCard.position <$> Sample.placed)
  ∧ cur ∈ Sample.placed
  ∧ length (getAdjacentCards Sample.placed cur Sample.threeCards) ≤ 2.
Proof.
  intros cur.
  assert (NoDup (PlacedCard.position <$> Sample.placed)) as Hnd by by_compute.
  assert (cur ∈ Sample.placed) as Hcur by (apply list_elem_of_In; simpl; tauto).
  split; [exact Hnd|]. split; [exact Hcur|].
  exact (proj1 (adjacent_at_most_two Sample.threeCards Sample.placed cur Hnd Hcur)).
Defined.

Lemma small_reading_no_adjacency_note_sample :
  let cur := Sample.place "cups-1" reversed 1 in
  let placed := [Sample.place "major-0" reversed 0; cur] in
  cur ∈ placed ∧ length placed ≤ 2
  ∧ getAdjacencyInfluence placed cur (cardMap_of Sample.catalog) Sample.threeCards = "".
Proof.
  intros cur placed.
  assert (cur ∈ placed) as Hcur by (apply list_elem_of_In; simpl; tauto).
  assert (length placed ≤ 2) as Hlen by (simpl; lia).
  split; [exact Hcur|]. split; [exact Hlen|].
  exact (small_reading_no_adjacency_note Sample.threeCards placed cur
           (cardMap_of Sample.catalog) Hcur Hlen).
Defined.

Lemma interpretationLong_layout_sample :
  let pc := Sample.place "major-0" upright 0 in
  ∃ e,
    interpretPosition Sample.threeCards Sample.placed (cardMap_of Sample.catalog) soft pc
    = inr e
    ∧ PositionReading.interpretationLong e
      = "The Fool in Past (upright) — A leap of faith."
        +:+ " As past, this energy is manifesting externally and suggests what has been.".
Proof.
  intros pc.
  destruct (interpretPosition Sample.threeCards Sample.placed (cardMap_of Sample.catalog)
              soft pc) as [err|e] eqn:He; [by vm_compute in He|].
  exists e. split; [reflexivity|].
  destruct (interpretationLong_layout Sample.threeCards Sample.placed Sample.catalog soft
              pc e He) as (card & p & Hcard & Hp & ->).
  vm_compute in Hcard, Hp. injection Hcard as <-. injection Hp as <-.
  vm_compute. reflexivity.
Defined.

Lemma result_counts_sample :
  ∃ r,
    interpretReading Sample.threeCards Sample.placed Sample.catalog [] None = inr r
    ∧ InterpretationResult.majorArcanaCount r ≤ length (InterpretationResult.positions r)
    ∧ InterpretationResult.reversedCount r ≤ length (InterpretationResult.positions r).
Proof.
  destruct (interpretReading Sample.threeCards Sample.placed Sample.catalog [] None)
    as [err|r] eqn:Hr; [by vm_compute in Hr|].
  exists r. split; [reflexivity|].
  exact (proj2 (proj2 (result_counts Sample.threeCards Sample.placed Sample.catalog []
                         None r Hr))).
Defined.

Lemma cardMap_of_last_wins_sample :
  let revised :=
    {| TarotCard.id := "major-0"; TarotCard.name := "The Fool (revised)";
       TarotCard.arcana := Major; TarotCard.suit := None; TarotCard.number := Some 0%Z;
       TarotCard.keywords := []; TarotCard.uprightShort := "a"; TarotCard.uprightLong := "b";
       TarotCard.reversedShort := "c"; TarotCard.reversedLong := "d";
       TarotCard.imageUrl := None |} in
  (TarotCard.id revised ∉ map TarotCard.id [Sample.aceOfCups])
  ∧ cardMap_of ([Sample.fool] ++ revised :: [Sample.aceOfCups]) !! "major-0" = Some revised.
Proof.
  intros revised.
  assert (TarotCard.id revised ∉ map TarotCard.id [Sample.aceOfCups]) as Hlast by by_compute.
  split; [exact Hlast|].
  exact (cardMap_of_last_wins [Sample.fool] [Sample.aceOfCups] revised Hlast).
Defined.

Lemma interpretReading_reordered_sample :
  let placed' := [Sample.place "cups-1" reversed 1; Sample.place "major-0" upright 0;
                  Sample.place "wands-2" upright 2] in
  Sample.placed ≡ₚ placed'
  ∧ ∃ r r',
      interpretReading Sample.threeCards Sample.placed Sample.catalog [] None = inr r
      ∧ interpretReading Sample.threeCards placed' Sample.catalog [] None = inr r'
      ∧ InterpretationResult.positions r' ≡ₚ InterpretationResult.positions r.
Proof.
  intros placed'.
  assert (Sample.placed ≡ₚ placed') as Hperm by apply Permutation_swap.
  split; [exact Hperm|].
  destruct (interpretReading Sample.threeCards Sample.placed Sample.catalog [] None)
    as [err|r] eqn:Hr; [by vm_compute in Hr|].
  destruct (interpretReading_reordered Sample.threeCards Sample.placed placed'
              Sample.catalog [] None r Hperm Hr) as (r' & Hr' & Hpos & _).
  exists r, r'. by rewrite Hr'.
Defined.

Lemma handleCardPlace_well_placed_sample :
  let st := {| Home.selectedSpread := Some Sample.threeCards;
               Home.placedCards := Sample.placed;
               Home.interpretation := None; Home.isManualMode := true |} in
  well_placed (Home.placedCards st)
  ∧ well_placed (Home.placedCards (handleCardPlace st 1 "swords-9" upright).1).
Proof.
  intros st.
  assert (well_placed (Home.placedCards st)) as Hwp by (split; by_compute).
  split; [exact Hwp|].
  exact (handleCardPlace_well_placed st 1 "swords-9" upright Hwp).
Defined.

Lemma Home_reachable_sample :
  let st := (handleCardPlace (handleSpreadSelect Home_initial Sample.threeCards).1
               1 "cups-1" upright).1 in
  NoDup (TarotCard.id <$> Sample.catalog)
  ∧ (∀ spread, spread ∈ [Sample.threeCards] →
               NoDup (SpreadPosition.index <$> TarotSpread.positions spread))
  ∧ Home_reachable (λ _, 1 # 2)%Q [Sample.threeCards] Sample.catalog st
  ∧ NoDup (PlacedCard.cardId <$> Home.placedCards st)
  ∧ NoDup (PlacedCard.position <$> Home.placedCards st).
Proof.
  intros st.
  assert (NoDup (TarotCard.id <$> Sample.catalog)) as Hids by by_compute.
  assert (∀ spread, spread ∈ [Sample.threeCards] →
                    NoDup (SpreadPosition.index <$> TarotSpread.positions spread)) as Hspreads.
  { intros spread ->%list_elem_of_singleton. by_compute. }
  assert (Home_reachable (λ _, 1 # 2)%Q [Sample.threeCards] Sample.catalog st) as Hreach.
  { eapply reachable_step; [eapply reachable_step; [apply reachable_initial|]|].
    - apply (step_select _ _ _ Home_initial Sample.threeCards), list_elem_of_here.
    - apply step_place. }
  split; [exact Hids|]. split; [exact Hspreads|]. split; [exact Hreach|].
  exact (Home_reachable_well_placed (λ _, 1 # 2)%Q [Sample.threeCards] Sample.catalog st
           Hids Hspreads Hreach).
Defined.

Lemma Home_step_clears_interpretation_sample :
  let result := {| InterpretationResult.positions := [];
                   InterpretationResult.overallSummary := "";
                   InterpretationResult.keywords := [];
                   InterpretationResult.confidenceHints := [];
                   InterpretationResult.suggestedActions := [];
                   InterpretationResult.dominantSuit := None;
                   InterpretationResult.majorArcanaCount := 0;
                   InterpretationResult.reversedCount := 0 |} in
  let st := {| Home.selectedSpread := Some Sample.threeCards;
               Home.placedCards := Sample.placed;
               Home.interpretation := Some result; Home.isManualMode := true |} in
  let st' := (handleCardToggle st "cups-1").1 in
  Home_step (λ _, 1 # 2)%Q [Sample.threeCards] Sample.catalog st st'
  ∧ Home.placedCards st' ≠ Home.placedCards st
  ∧ Home.interpretation st' = None.
Proof.
  intros result st st'.
  assert (Home_step (λ _, 1 # 2)%Q [Sample.threeCards] Sample.catalog st st') as Hstep
    by apply step_toggle.
  assert (Home.placedCards st' ≠ Home.placedCards st) as Hchanged by (vm_compute; congruence).
  split; [exact Hstep|]. split; [exact Hchanged|].
  exact (Home_step_clears_interpretation (λ _, 1 # 2)%Q [Sample.threeCards] Sample.catalog
           st st' Hstep Hchanged).
Defined.

(** ** From the deal button to the answer of the route *)

Section DealButton.
Context (random : nat → Q) (cards : list TarotCard.t) (st : Home.t) (spread : TarotSpread.t).

Lemma handleShuffleAndDeal_Some :
  unit_draws random → Home.selectedSpread st = Some spread → cards ≠ [] →
  ∃ dealt,
    handleShuffleAndDeal random cards st
    = Some ({| Home.selectedSpread := Some spread; Home.placedCards := dealt;
               Home.interpretation := None; Home.isManualMode := false |},
            [{| Toast.title := "Cards dealt";
                Toast.description :=
                  show_nat (length dealt) +:+ " cards have been placed in the spread";
                Toast.destructive := false |}])
    ∧ length dealt = length cards `min` length (TarotSpread.positions spread)
    ∧ ∀ pc, pc ∈ dealt → resolves spread cards pc.
Proof.
  intros Hdraws Hsel Hcards. unfold handleShuffleAndDeal. rewrite Hsel.
  rewrite decide_False by (by destruct cards).
  destruct (shuffleDeck_calls_perm random cards Hdraws) as (shuffled & -> & Hperm).
  cbn [mbind option_bind].
  destruct (dealCards_resolves (λ n, random (length cards - 1 + n)) shuffled spread cards)
    as (dealt & Hdeal & Hres).
  { intros card Hcard. rewrite Hperm in Hcard.
    by apply list_elem_of_In, in_map, list_elem_of_In. }
  destruct (dealCards_entries (λ n, random (length cards - 1 + n)) shuffled spread)
    as (dealt' & Hdeal' & Hlen & _).
  assert (dealt' = dealt) as -> by congruence.
  rewrite Hdeal. cbn [mbind option_bind]. exists dealt.
  split; [done|]. split; [|done]. by rewrite Hlen, length_take, Hperm.
Qed.
End DealButton.

(** X19. The deal button. With a spread selected, a catalog that is not
    empty and draws in [0, 1), shuffling and dealing does not throw: it places
    as many cards as the spread has positions (or all cards, if fewer), each
    on a position of the spread and from the catalog, clears the
    interpretation, leaves manual mode and announces the number of cards
    dealt. *)
Theorem handleShuffleAndDeal_deals (random : nat → Q) (cards : list TarotCard.t)
    (st : Home.t) (spread : TarotSpread.t) :
  unit_draws random → Home.selectedSpread st = Some spread → cards ≠ [] →
  ∃ st' toast,
    handleShuffleAndDeal random cards st = Some (st', [toast])
    ∧ Home.selectedSpread st' = Some spread
    ∧ length (Home.placedCards st')
      = length cards `min` length (TarotSpread.positions spread)
    ∧ (∀ pc, pc ∈ Home.placedCards st' → resolves spread cards pc)
    ∧ Home.interpretation st' = None
    ∧ Home.isManualMode st' = false
    ∧ Toast.description toast
      = show_nat (length (Home.placedCards st')) +:+ " cards have been placed in the spread".
Proof.
  intros Hdraws Hsel Hcards.
  destruct (handleShuffleAndDeal_Some random cards st spread Hdraws Hsel Hcards)
    as (dealt & -> & Hlen & Hres).
  eexists _, _. split; [reflexivity|]. simpl. done.
Qed.

(** X20. A dealt reading is always interpreted: when the page's catalog and
    selected spread are those of the storage and the spread has a position,
    the request the page sends after a deal is answered 200 with an
    interpretation that has one entry per dealt card. *)
Theorem deal_then_interpret_ok (random : nat → Q) (storage : Storage.t) (st : Home.t)
    (spread : TarotSpread.t) :
  unit_draws random →
  Home.selectedSpread st = Some spread →
  Storage.getSpread storage (TarotSpread.id spread) = Some spread →
  Storage.getAllCards storage ≠ [] →
  TarotSpread.positions spread ≠ [] →
  ∃ st' toasts request r,
    handleShuffleAndDeal random (Storage.getAllCards storage) st = Some (st', toasts)
    ∧ handleInterpret st' = Some request
    ∧ interpretRoute storage request
      = {| Response.status := 200; Response.body := JsonInterpretation r |}
    ∧ length (InterpretationResult.positions r) = length (Home.placedCards st').
Proof.
  intros Hdraws Hsel Hspread Hcards Hpositions.
  destruct (handleShuffleAndDeal_Some random (Storage.getAllCards storage) st spread
              Hdraws Hsel Hcards) as (dealt & Hdeal & Hlen & Hres).
  destruct (interpretReading_total spread dealt (Storage.getAllCards storage)
              (Storage.getAllCombinationRules storage)
              (Some {| InterpretationOptions.reversalMode := Some soft |}) Hres) as [r Hr].
  eexists _, _, _, r. split; [exact Hdeal|].
  assert (length dealt ≠ 0) as Hne.
  { rewrite Hlen. destruct (Storage.getAllCards storage), (TarotSpread.positions spread);
      simpl; done. }
  split; [|split].
  - unfold handleInterpret. simpl. by rewrite decide_False.
  - unfold interpretRoute. simpl. rewrite Hspread.
    rewrite find_all_false.
    2:{ intros pc Hpc. rewrite missing_card_test. apply bool_decide_eq_false.
        intros Hno. by apply Hno, Hres. }
    rewrite convertDbSpreadToFrontendSpread_id, convertDbCards_id, convertDbRules_id.
    by rewrite Hr.
  - simpl. apply interpretReading_inr, map_throwing_inr, Forall2_length in Hr. done.
Qed.

Lemma handleShuffleAndDeal_deals_sample :
  let st := (handleSpreadSelect Home_initial Sample.threeCards).1 in
  unit_draws (λ _, 1 # 2)%Q
  ∧ Home.selectedSpread st = Some Sample.threeCards
  ∧ Sample.catalog ≠ []
  ∧ ∃ st' toast,
      handleShuffleAndDeal (λ _, 1 # 2)%Q Sample.catalog st = Some (st', [toast])
      ∧ length (Home.placedCards st') = 3.
Proof.
  intros st.
  assert (Sample.catalog ≠ []) as Hcards by done.
  split; [exact half_draws|]. split; [reflexivity|]. split; [exact Hcards|].
  destruct (handleShuffleAndDeal_deals (λ _, 1 # 2)%Q Sample.catalog st Sample.threeCards
              half_draws eq_refl Hcards) as (st' & toast & Hdeal & _ & Hlen & _).
  by exists st', toast.
Defined.

Lemma deal_then_interpret_ok_sample :
  let storage := {| Storage.getSpread :=
                      λ id, if decide (id = "three-card") then Some Sample.threeCards
                            else None;
                    Storage.getAllCards := Sample.catalog;
                    Storage.getAllCombinationRules := [] |} in
  let st := (handleSpreadSelect Home_initial Sample.threeCards).1 in
  unit_draws (λ _, 1 # 2)%Q
  ∧ ∃ st' toasts request r,
      handleShuffleAndDeal (λ _, 1 # 2)%Q Sample.catalog st = Some (st', toasts)
      ∧ handleInterpret st' = Some request
      ∧ interpretRoute storage request
        = {| Response.status := 200; Response.body := JsonInterpretation r |}.
Proof.
  intros storage st. split; [exact half_draws|].
  destruct (deal_then_interpret_ok (λ _, 1 # 2)%Q storage st Sample.threeCards half_draws
              eq_refl eq_refl) as (st' & toasts & request & r & H1 & H2 & H3 & _);
    [done | done |].
  by exists st', toasts, request, r.
Defined.

(** ** From the card library to the board *)

(** X21. A card the library offers is never refused by the board: dropping
    an available card (dragged upright) on any position places it without an
    error toast, the board then shows it on that position, and the library no
    longer offers it. *)
Theorem library_card_is_accepted (st : Home.t) (filteredCards : list TarotCard.t)
    (card : TarotCard.t) (position : Z) :
  card ∈ availableCards filteredCards (usedCardIds st) →
  let placing := handleCardPlace st position (TarotCard.id card) upright in
  placing.2 = []
  ∧ getCardAtPosition (Home.placedCards placing.1) position
    = Some {| PlacedCard.cardId := TarotCard.id card; PlacedCard.orientation := upright;
              PlacedCard.position := position;
              PlacedCard.x := None; PlacedCard.y := None |}
  ∧ card ∉ availableCards filteredCards (usedCardIds placing.1).
Proof.
  intros Havailable placing.
  apply list_elem_of_filter in Havailable as [Hfree Hcard]. unfold usedCardIds in Hfree.
  set (new := {| PlacedCard.cardId := TarotCard.id card; PlacedCard.orientation := upright;
                 PlacedCard.position := position;
                 PlacedCard.x := None; PlacedCard.y := None |}).
  destruct (place_getCardAtPosition (Home.placedCards st) new) as [Hat _].
  pose proof (handleCardPlace_placed st position (TarotCard.id card) upright Hfree) as Hst.
  split; [|split].
  - unfold placing, handleCardPlace. rewrite bool_decide_eq_false_2; [done|].
    rewrite Exists_exists. intros (pc & Hpc & Hid).
    apply Hfree. rewrite <- Hid. by apply list_elem_of_fmap_2.
  - unfold placing. rewrite Hst. exact Hat.
  - unfold availableCards, usedCardIds. rewrite list_elem_of_filter.
    intros [Hstill _]. apply Hstill.
    unfold placing. rewrite Hst. simpl.
    apply (list_elem_of_fmap_2' PlacedCard.cardId _ new); [|done].
    apply list_elem_of_In. unfold getCardAtPosition in Hat.
    by apply find_some in Hat as [Hin _].
Qed.

Lemma library_card_is_accepted_sample :
  let st := {| Home.selectedSpread := Some Sample.threeCards;
               Home.placedCards := [Sample.place "major-0" upright 0];
               Home.interpretation := None; Home.isManualMode := true |} in
  Sample.aceOfCups ∈ availableCards Sample.catalog (usedCardIds st)
  ∧ (handleCardPlace st 0 "cups-1" upright).2 = []
  ∧ getCardAtPosition (Home.placedCards (handleCardPlace st 0 "cups-1" upright).1) 0
    = Some (Sample.place "cups-1" upright 0).
Proof.
  intros st.
  assert (Sample.aceOfCups ∈ availableCards Sample.catalog (usedCardIds st)) as Havailable.
  { apply list_elem_of_filter. split; [by_compute|].
    apply list_elem_of_In. simpl. tauto. }
  split; [exact Havailable|].
  destruct (library_card_is_accepted st Sample.catalog Sample.aceOfCups 0 Havailable)
    as (Htoasts & Hboard & _).
  split; [exact Htoasts | exact Hboard].
Defined.
